(** * A shallow embedding of the GNU grep / PCRE2 wrappers

    The development follows the three C translation units
    [gnulib_stubs.c], [gnu_grep_wrapper.c] and [pcre2_wrapper.c].

    - C integers are [Z] with the wrap-around of an LP64 target written
      out ([size_t] is 64 bits wide, [long] and [ptrdiff_t] are 64-bit
      signed, [int] is 32-bit signed).
    - A C function that touches file-scope variables, the allocator,
      [stderr] or the process itself is a computation [Proc A] over an
      explicit [World]; it either returns, terminates the process, or
      is unwinding to the [error_jmp] checkpoint.
    - The wrapped engines (GNU grep's [Fcompile]/[Fexecute]/
      [GEAcompile]/[EGexecute] and the PCRE2 library) are external to
      the translation units and enter as section variables. *)

From Stdlib Require Import ZArith List String Ascii Bool Lia.
Import ListNotations.
Local Open Scope string_scope.
Local Open Scope Z_scope.

(** ** Machine integers *)

Module CInt.

Definition SIZE_BITS : Z := 64.
Definition SIZE_MOD : Z := 2 ^ SIZE_BITS.
Definition SIZE_MAX : Z := SIZE_MOD - 1.
Definition PTRDIFF_MAX : Z := 2 ^ 63 - 1.
Definition PTRDIFF_MIN : Z := - 2 ^ 63.
Definition LONG_MAX : Z := 2 ^ 63 - 1.
Definition LONG_MIN : Z := - 2 ^ 63.
Definition INT_MAX : Z := 2 ^ 31 - 1.
Definition ENOMEM : Z := 12.

(** Conversion to [size_t]: reduction modulo [2^64]; every unsigned
    operation of the sources is followed by it. *)
Definition to_size (z : Z) : Z := z mod SIZE_MOD.

Definition is_size (z : Z) : Prop := 0 <= z <= SIZE_MAX.
Definition is_ptrdiff (z : Z) : Prop := PTRDIFF_MIN <= z <= PTRDIFF_MAX.

Definition size_add (a b : Z) : Z := to_size (a + b).
Definition size_sub (a b : Z) : Z := to_size (a - b).
Definition size_mul (a b : Z) : Z := to_size (a * b).

End CInt.
Import CInt.

(** ** The process state *)

(** [struct localeinfo], the fields the wrapper initialises. *)
Record LocaleInfo := mkLocaleInfo {
  multibyte : bool;
  simple : bool;
  using_utf8 : bool;
  sbclen : list Z
}.

(** The file-scope variables of [gnu_grep_wrapper.c] with external
    linkage: the engine reads them. *)
Record Globals := mkGlobals {
  match_icase : bool;
  match_words : bool;
  match_lines : bool;
  eolbyte : ascii;
  localeinfo : LocaleInfo
}.

(** Entry points of the wrapped line-search engine. *)
Inductive engine_call :=
| Call_wordinit
| Call_Fcompile
| Call_GEAcompile
| Call_Fexecute
| Call_EGexecute.

(** - [error_occurred] and [initialized] are the [static] variables of
      the wrapper ([error_message] is never written and stays empty);
    - [alloc_script] decides the next requests made to the C allocator
      ([true]: the request is served; an exhausted script serves every
      request), [alloc_log] lists the byte sizes requested so far, most
      recent first;
    - [engine_log] lists the engine entry points entered so far, most
      recent first. *)
Record World := mkWorld {
  globals : Globals;
  error_occurred : Z;
  initialized : bool;
  errno : Z;
  alloc_script : list bool;
  alloc_log : list Z;
  stderr : list string;
  engine_log : list engine_call
}.

Definition zero_localeinfo : LocaleInfo :=
  mkLocaleInfo false false false (repeat 0 256).

Definition newline : ascii := Ascii.ascii_of_nat 10.

(** The state at program start, from the initialisers of the file-scope
    variables. *)
Definition initial_globals : Globals :=
  mkGlobals false false false newline zero_localeinfo.

Definition initial_world (script : list bool) : World :=
  mkWorld initial_globals 0 false 0 script [] [] [].

Definition set_globals (g : Globals) (w : World) : World :=
  mkWorld g (error_occurred w) (initialized w) (errno w)
          (alloc_script w) (alloc_log w) (stderr w) (engine_log w).

Definition set_error_occurred (e : Z) (w : World) : World :=
  mkWorld (globals w) e (initialized w) (errno w)
          (alloc_script w) (alloc_log w) (stderr w) (engine_log w).

Definition set_initialized (b : bool) (w : World) : World :=
  mkWorld (globals w) (error_occurred w) b (errno w)
          (alloc_script w) (alloc_log w) (stderr w) (engine_log w).

Definition set_errno (e : Z) (w : World) : World :=
  mkWorld (globals w) (error_occurred w) (initialized w) e
          (alloc_script w) (alloc_log w) (stderr w) (engine_log w).

Definition set_alloc (script : list bool) (log : list Z) (w : World) : World :=
  mkWorld (globals w) (error_occurred w) (initialized w) (errno w)
          script log (stderr w) (engine_log w).

Definition push_stderr (s : string) (w : World) : World :=
  mkWorld (globals w) (error_occurred w) (initialized w) (errno w)
          (alloc_script w) (alloc_log w) (s :: stderr w) (engine_log w).

Definition push_engine (c : engine_call) (w : World) : World :=
  mkWorld (globals w) (error_occurred w) (initialized w) (errno w)
          (alloc_script w) (alloc_log w) (stderr w) (c :: engine_log w).

(** ** Computations *)

(** How a call ends: it returns a value, control is travelling to the
    [error_jmp] checkpoint ([longjmp (error_jmp, _)]), the process has
    been terminated ([abort ()]), or the call has left defined
    behaviour by an access outside a block. *)
Inductive outcome (A : Type) :=
| Returned (a : A) (w : World)
| Jumped (w : World)
| Aborted (w : World)
| Faulted (w : World).
Arguments Returned {A} a w.
Arguments Jumped {A} w.
Arguments Aborted {A} w.
Arguments Faulted {A} w.

Definition Proc (A : Type) : Type := World -> outcome A.

Definition ret {A} (a : A) : Proc A := fun w => Returned a w.

Definition bind {A B} (m : Proc A) (k : A -> Proc B) : Proc B :=
  fun w =>
    match m w with
    | Returned a w' => k a w'
    | Jumped w' => Jumped w'
    | Aborted w' => Aborted w'
    | Faulted w' => Faulted w'
    end.

Declare Scope proc_scope.
Delimit Scope proc_scope with proc.
Notation "x <- m ;; k" := (bind m (fun x => k))
  (at level 100, m at next level, right associativity) : proc_scope.
Notation "m ;; k" := (bind m (fun _ => k))
  (at level 100, right associativity) : proc_scope.
Local Open Scope proc_scope.

Definition get_world : Proc World := fun w => Returned w w.
Definition modify (f : World -> World) : Proc unit := fun w => Returned tt (f w).

(** [abort ()]. *)
Definition abort {A} : Proc A := fun w => Aborted w.

(** An access outside a block: what follows is undefined. *)
Definition fault {A} : Proc A := fun w => Faulted w.

(** [if (setjmp (error_jmp) != 0) { handler } body]: the body runs
    first; a jump to [error_jmp] raised inside it lands in the handler. *)
Definition setjmp_error_jmp {A} (handler body : Proc A) : Proc A :=
  fun w =>
    match body w with
    | Jumped w' => handler w'
    | o => o
    end.

(** The final world of an outcome. *)
Definition world_of {A} (o : outcome A) : World :=
  match o with
  | Returned _ w => w
  | Jumped w => w
  | Aborted w => w
  | Faulted w => w
  end.

(** The value a call returns, [None] when it does not return. *)
Definition returned_value {A} (o : outcome A) : option A :=
  match o with
  | Returned a _ => Some a
  | _ => None
  end.

(** The call does not end unwinding to [error_jmp]. *)
Definition not_jumped {A} (o : outcome A) : Prop :=
  match o with
  | Jumped _ => False
  | _ => True
  end.

(** [preserves P m]: from a state that satisfies [P], [m] ends -
    returning, unwinding or terminating the process - in a state that
    satisfies [P]. *)
Definition preserves {A} (P : World -> Prop) (m : Proc A) : Prop :=
  forall w, P w -> P (world_of (m w)).

(** The flag behind [gnu_grep_get_error] is clear. *)
Definition flag_clear (w : World) : Prop := error_occurred w = 0.

(** The part of the globals that a compile call leaves alone once the
    locale profile is set up. *)
Definition same_exec_view (g g' : Globals) : Prop :=
  match_words g = match_words g' /\
  match_lines g = match_lines g' /\
  eolbyte g = eolbyte g' /\
  localeinfo g = localeinfo g'.

(** The globals are [g] and the locale profile has been set up. *)
Definition globals_are (g : Globals) (w : World) : Prop :=
  globals w = g /\ initialized w = true.

(** Every value that [m] returns satisfies [Q]. *)
Definition returns_only {A} (Q : A -> Prop) (m : Proc A) : Prop :=
  forall w a w', m w = Returned a w' -> Q a.

(** How often [c] was entered according to an engine log. *)
Definition entries (c : engine_call) (log : list engine_call) : nat :=
  List.length
    (filter (fun d =>
               match c, d with
               | Call_wordinit, Call_wordinit
               | Call_Fcompile, Call_Fcompile
               | Call_GEAcompile, Call_GEAcompile
               | Call_Fexecute, Call_Fexecute
               | Call_EGexecute, Call_EGexecute => true
               | _, _ => false
               end) log).

(** ** The C allocator *)

(** A pointer is [None] for [NULL] and [Some b] for the block that the
    [b]-th request to the allocator returned. *)
Definition ptr := option nat.

(** One request of [bytes] bytes to [malloc]/[calloc]/[realloc]. *)
Definition alloc_request (bytes : Z) : Proc ptr :=
  fun w =>
    let log := bytes :: alloc_log w in
    match alloc_script w with
    | false :: rest => Returned None (set_alloc rest log w)
    | true :: rest => Returned (Some (List.length (alloc_log w))) (set_alloc rest log w)
    | [] => Returned (Some (List.length (alloc_log w))) (set_alloc [] log w)
    end.

Definition malloc (n : Z) : Proc ptr := alloc_request n.
Definition realloc (p : ptr) (n : Z) : Proc ptr := alloc_request n.

Definition is_null (p : ptr) : bool :=
  match p with None => true | Some _ => false end.

(** ** gnulib_stubs.c *)

Module Stubs.

Definition reallocarray (p : ptr) (nmemb size : Z) : Proc ptr :=
  if negb (nmemb =? 0) && (size >? SIZE_MAX / nmemb) then
    modify (set_errno ENOMEM) ;;
    ret None
  else
    realloc p (size_mul nmemb size).

Definition xalloc_die {A} : Proc A :=
  modify (push_stderr "grep: memory exhausted") ;;
  abort.

Definition xmalloc (n : Z) : Proc ptr :=
  p <- malloc n ;;
  if is_null p && negb (n =? 0) then xalloc_die else ret p.

Definition xrealloc (p : ptr) (n : Z) : Proc ptr :=
  r <- realloc p n ;;
  if is_null r && negb (n =? 0) then xalloc_die else ret r.

Definition xnmalloc (n s : Z) : Proc ptr :=
  xmalloc (size_mul n s).

(** The element count that [xpalloc] stores into [*pn]. *)
Definition xpalloc_count (n n_incr_min n_max : Z) : Z :=
  let n_incr := n in
  let n_incr := if n_incr <? n_incr_min then n_incr_min else n_incr in
  let n_incr :=
    if (n_max >=? 0) && (size_add n n_incr >? to_size n_max)
    then size_sub (to_size n_max) n
    else n_incr in
  size_add n n_incr.

(** [xpalloc (pa, &n, n_incr_min, n_max, s)]: the result pairs the
    returned pointer with the value left in [*pn]. *)
Definition xpalloc (pa : ptr) (n n_incr_min n_max s : Z) : Proc (ptr * Z) :=
  let new_n := xpalloc_count n n_incr_min n_max in
  r <- xrealloc pa (size_mul new_n s) ;;
  ret (r, new_n).

Definition xreallocarray (p : ptr) (n s : Z) : Proc ptr :=
  (if negb (s =? 0) && (n >? to_size (-1) / s) then xalloc_die else ret tt) ;;
  xrealloc p (size_mul n s).

Definition x2realloc (p : ptr) (n : Z) : Proc (ptr * Z) :=
  xpalloc p n 1 (-1) 1.

Definition x2nrealloc (p : ptr) (n s : Z) : Proc (ptr * Z) :=
  xpalloc p n 1 (-1) s.

(** A caller that grows its array [k] times: each [x2nrealloc] call is
    given the pointer and the count that the call before left. *)
Fixpoint x2nrealloc_repeat (k : nat) (p : ptr) (n s : Z) : Proc (ptr * Z) :=
  match k with
  | O => ret (p, n)
  | S k' =>
    r <- x2nrealloc p n s ;;
    x2nrealloc_repeat k' (fst r) (snd r) s
  end.

(** What a scan over a buffer yields: a pointer to the byte at index
    [i], [NULL], or a read outside the buffer. *)
Inductive scan_result :=
| Ptr (i : nat)
| Null
| Out_of_bounds.

(** The loop of [memrchr]: [n] is the count still to test, and [*--p]
    reads the byte at index [n - 1]. *)
Fixpoint memrchr_loop (s : list Z) (c : Z) (n : nat) : scan_result :=
  match n with
  | O => Null
  | S n' =>
    match nth_error s n' with
    | None => Out_of_bounds
    | Some b => if b =? c mod 256 then Ptr n' else memrchr_loop s c n'
    end
  end.

(** [memrchr (s, c, n)] over the buffer [s] of unsigned bytes. *)
Definition memrchr (s : list Z) (c : Z) (n : Z) : scan_result :=
  memrchr_loop s c (Z.to_nat n).

(** The loop of [rawmemchr]: [i] is the index of the head of [s]. *)
Fixpoint rawmemchr_from (s : list Z) (c : Z) (i : nat) : scan_result :=
  match s with
  | [] => Out_of_bounds
  | b :: rest => if b =? c mod 256 then Ptr i else rawmemchr_from rest c (S i)
  end.

Definition rawmemchr (s : list Z) (c : Z) : scan_result :=
  rawmemchr_from s c 0.

(** [rotr_sz (x, n)]; [None] when the shift count is negative, which C
    leaves undefined ([%] truncates towards zero). *)
Definition rotr_sz (x n : Z) : option Z :=
  let bits := SIZE_BITS in
  let n := Z.rem n bits in
  if n =? 0 then Some x
  else if n <? 0 then None
  else Some (Z.lor (Z.shiftr x n) (to_size (Z.shiftl x (bits - n)))).

Definition EINVAL : Z := 22.
Definition ERANGE : Z := 34.

(** [setlocale_null_r (category, buf, bufsize)]: [locale] is what
    [setlocale (category, NULL)] returns; the result pairs the returned
    code with the string left in [buf], [None] when [buf] is not
    written. *)
Definition setlocale_null_r (locale : option string) (bufsize : Z)
  : Z * option string :=
  match locale with
  | None => (EINVAL, if bufsize >? 0 then Some "" else None)
  | Some l =>
    let len := Z.of_nat (String.length l) in
    if len >=? bufsize then
      (ERANGE,
       if bufsize >? 0 then Some (String.substring 0 (Z.to_nat (bufsize - 1)) l)
       else None)
    else (0, Some l)
  end.

(** [calloc (n, s)] of the C library: no block when the product is not
    representable. *)
Definition calloc (n s : Z) : Proc ptr :=
  if n * s >? SIZE_MAX then ret None else alloc_request (n * s).

Definition xcalloc (n s : Z) : Proc ptr :=
  p <- calloc n s ;;
  if is_null p && negb (n =? 0) && negb (s =? 0) then xalloc_die else ret p.

Definition xzalloc (n : Z) : Proc ptr := xcalloc n 1.

(** What the [x*alloc] functions promise for a request that is not
    empty: a block, or the end of the process after the diagnostic. *)
Definition nonnull_or_dies (w : World) (o : outcome ptr) : Prop :=
  match o with
  | Returned p _ => p <> None
  | Aborted w' => stderr w' = "grep: memory exhausted" :: stderr w
  | Jumped _ => False
  | Faulted _ => False
  end.


(** How [mbslen] ends: with a length, with [s] moved past the
    terminator of the string, or with the loop model out of steps. *)
Inductive mbslen_result :=
| Len (n : Z)
| Overrun
| No_fuel.

Section Mbslen.

(** [mbrlen (s, MB_LEN_MAX, &state)] of the C library, on the bytes of
    the string from [s] up to its terminator. *)
Variable mbstate : Type.
Variable mbrlen : list Z -> mbstate -> Z * mbstate.

(** The loop of [mbslen]; [s] holds the bytes up to the terminator. *)
Fixpoint mbslen_loop (fuel : nat) (s : list Z) (state : mbstate) (len : Z)
  : mbslen_result :=
  match fuel with
  | O => No_fuel
  | S fuel' =>
    match s with
    | [] => Len len
    | _ :: rest =>
      let '(bytes, state') := mbrlen s state in
      if (bytes =? to_size (-1)) || (bytes =? to_size (-2)) then
        mbslen_loop fuel' rest state' (size_add len 1)
      else if bytes =? 0 then Len len
      else if bytes >? Z.of_nat (List.length s) then Overrun
      else mbslen_loop fuel' (skipn (Z.to_nat bytes) s) state' (size_add len 1)
    end
  end.

(** [mbslen (s)] from the zeroed state [state0]; every iteration moves
    [s] forward, so one step per byte and the final test suffice. *)
Definition mbslen (state0 : mbstate) (s : list Z) : mbslen_result :=
  mbslen_loop (S (List.length s)) s state0 0.

End Mbslen.

End Stubs.

(** ** gnu_grep_wrapper.c *)

(** What a call into the wrapped engine does: it returns, or it takes
    its fatal path and calls [xalloc_die ()]. *)
Inductive engine_reply (A : Type) :=
| Eng_ret (a : A)
| Eng_fatal.
Arguments Eng_ret {A} a.
Arguments Eng_fatal {A}.

Module Gnu.

(** [GnuSearchContext]; [compiled] is [None] for a null pointer. *)
Record GnuSearchContext (handle : Type) := mkCtx {
  compiled : option handle;
  is_fixed : bool
}.
Arguments mkCtx {handle} compiled is_fixed.
Arguments compiled {handle} g.
Arguments is_fixed {handle} g.

(** [error_message] is zero-initialised and never written. *)
Definition error_message : string := "".

(** [gnu_grep_get_error ()], as a function of the current state. *)
Definition gnu_grep_get_error (w : World) : option string :=
  if negb (error_occurred w =? 0) then Some error_message else None.

Definition sizeof_GnuSearchContext : Z := 16.

Section Wrapper.

(** The engine's compiled representation and its four entry points.
    Each of them reads the external-linkage globals.  The execute
    functions yield the returned [ptrdiff_t] and the value left in
    [*match_size]. *)
Variable handle : Type.
Variable Fcompile : Globals -> string -> Z -> Z -> bool -> engine_reply (option handle).
Variable GEAcompile : Globals -> string -> Z -> Z -> bool -> engine_reply (option handle).
Variable Fexecute : Globals -> handle -> string -> Z -> engine_reply (Z * Z).
Variable EGexecute : Globals -> handle -> string -> Z -> engine_reply (Z * Z).

(** Syntax bits of [regex.h]. *)
Variable RE_SYNTAX_GREP RE_SYNTAX_EGREP RE_ICASE : Z.

(** Entering the engine at entry point [c]. *)
Definition engine {A} (c : engine_call) (f : Globals -> engine_reply A) : Proc A :=
  modify (push_engine c) ;;
  w <- get_world ;;
  match f (globals w) with
  | Eng_ret a => ret a
  | Eng_fatal => Stubs.xalloc_die
  end.

Definition wordinit : Proc unit :=
  engine Call_wordinit (fun _ => Eng_ret tt).

Definition set_localeinfo (l : LocaleInfo) (g : Globals) : Globals :=
  mkGlobals (match_icase g) (match_words g) (match_lines g) (eolbyte g) l.

Definition set_match_flags (icase words lines : bool) (g : Globals) : Globals :=
  mkGlobals icase words lines (eolbyte g) (localeinfo g).

(** The single-byte profile [gnu_grep_init] stores in [localeinfo]. *)
Definition ascii_profile : LocaleInfo :=
  mkLocaleInfo false true false (repeat 1 256).

Definition gnu_grep_init : Proc unit :=
  w <- get_world ;;
  if initialized w then ret tt
  else
    modify (fun w => set_globals (set_localeinfo ascii_profile (globals w)) w) ;;
    wordinit ;;
    modify (set_initialized true).

(** The globals as [gnu_grep_init] leaves them. *)
Definition init_globals (w : World) : Globals :=
  if initialized w then globals w else set_localeinfo ascii_profile (globals w).

(** The first [pattern_len] bytes of the pattern followed by the
    newline that [Fcompile] expects. *)
Definition pattern_with_nl (pattern : string) (pattern_len : Z) : string :=
  String.substring 0 (Z.to_nat pattern_len) pattern ++ String newline EmptyString.

(** [memcpy (pattern_with_nl, pattern, pattern_len)] and the stores of
    the newline and the terminator: [pattern] is the caller's buffer.
    With [0 <= pattern_len <= length pattern] the copy reads inside the
    caller's buffer and the [pattern_len + 2] bytes written are the block
    just allocated; with any other length ([pattern_len] is converted
    to [size_t]) bytes outside a block are read or written. *)
Definition copy_pattern (pattern : string) (pattern_len : Z) : Proc unit :=
  if (0 <=? pattern_len) && (pattern_len <=? Z.of_nat (String.length pattern))
  then ret tt
  else fault.

Definition gnu_grep_compile_fixed (pattern : string) (pattern_len : Z)
    (case_insensitive : bool) : Proc (option (GnuSearchContext handle)) :=
  gnu_grep_init ;;
  modify (fun w => set_globals (set_match_flags case_insensitive false false (globals w)) w) ;;
  p <- malloc (to_size (pattern_len + 2)) ;;
  if is_null p then ret None
  else
    copy_pattern pattern pattern_len ;;
    modify (set_error_occurred 0) ;;
    setjmp_error_jmp
      (ret None)
      (c <- malloc sizeof_GnuSearchContext ;;
       if is_null c then ret None
       else
         h <- engine Call_Fcompile
                (fun g => Fcompile g (pattern_with_nl pattern pattern_len)
                                   (pattern_len + 1) 0 false) ;;
         match h with
         | None => ret None
         | Some _ => ret (Some (mkCtx h true))
         end).

Definition gnu_grep_compile_regex (pattern : string) (pattern_len : Z)
    (case_insensitive extended : bool) : Proc (option (GnuSearchContext handle)) :=
  gnu_grep_init ;;
  modify (fun w => set_globals (set_match_flags case_insensitive false false (globals w)) w) ;;
  modify (set_error_occurred 0) ;;
  setjmp_error_jmp
    (ret None)
    (c <- malloc sizeof_GnuSearchContext ;;
     if is_null c then ret None
     else
       let syntax := if extended then RE_SYNTAX_EGREP else RE_SYNTAX_GREP in
       let syntax := if case_insensitive then Z.lor syntax RE_ICASE else syntax in
       h <- engine Call_GEAcompile
              (fun g => GEAcompile g pattern pattern_len syntax false) ;;
       match h with
       | None => ret None
       | Some _ => ret (Some (mkCtx h false))
       end).

(** [gnu_grep_execute (ctx, text, text_len, match_start)].  [ctx] and
    [text] are [None] for null pointers; [match_start] tells whether the
    out pointer is non-null.  The result pairs the returned [long] with
    the value stored through [match_start], if any. *)
Definition gnu_grep_execute (ctx : option (GnuSearchContext handle))
    (text : option string) (text_len : Z) (match_start : bool)
  : Proc (Z * option Z) :=
  match ctx, text with
  | Some c, Some t =>
    match compiled c with
    | Some h =>
      if text_len <=? 0 then ret (-2, None)
      else
        modify (set_error_occurred 0) ;;
        setjmp_error_jmp
          (ret (-2, None))
          (r <- (if is_fixed c
                 then engine Call_Fexecute (fun g => Fexecute g h t text_len)
                 else engine Call_EGexecute (fun g => EGexecute g h t text_len)) ;;
           let '(result, match_size) := r in
           if result <? 0 then ret (-1, None)
           else ret (match_size, if match_start then Some result else None))
    | None => ret (-2, None)
    end
  | _, _ => ret (-2, None)
  end.

Definition gnu_grep_free (ctx : option (GnuSearchContext handle)) : Proc unit :=
  ret tt.

(** A compile call of either kind. *)
Inductive compile_req :=
| Req_fixed (pattern : string) (pattern_len : Z) (case_insensitive : bool)
| Req_regex (pattern : string) (pattern_len : Z) (case_insensitive extended : bool).

Definition compile (r : compile_req) : Proc (option (GnuSearchContext handle)) :=
  match r with
  | Req_fixed p n ci => gnu_grep_compile_fixed p n ci
  | Req_regex p n ci ex => gnu_grep_compile_regex p n ci ex
  end.

Definition req_icase (r : compile_req) : bool :=
  match r with
  | Req_fixed _ _ ci => ci
  | Req_regex _ _ ci _ => ci
  end.

(** One call of the wrapper's interface, and a program of such calls;
    a program stops when the process is terminated. *)
Inductive op :=
| Op_compile_fixed (pattern : string) (pattern_len : Z) (case_insensitive : bool)
| Op_compile_regex (pattern : string) (pattern_len : Z) (case_insensitive extended : bool)
| Op_execute (ctx : option (GnuSearchContext handle)) (text : option string)
             (text_len : Z) (match_start : bool)
| Op_free (ctx : option (GnuSearchContext handle)).

Definition run_op (o : op) : Proc unit :=
  match o with
  | Op_compile_fixed p n ci => gnu_grep_compile_fixed p n ci ;; ret tt
  | Op_compile_regex p n ci ex => gnu_grep_compile_regex p n ci ex ;; ret tt
  | Op_execute c t n ms => gnu_grep_execute c t n ms ;; ret tt
  | Op_free c => gnu_grep_free c
  end.

Fixpoint run_ops (os : list op) : Proc unit :=
  match os with
  | [] => ret tt
  | o :: rest => run_op o ;; run_ops rest
  end.

End Wrapper.

(** A context as a compile call of kind [r] returns it. *)
Definition usable_for {handle} (r : compile_req)
    (c : option (GnuSearchContext handle)) : Prop :=
  match c with
  | None => True
  | Some c =>
    compiled c <> None /\
    is_fixed c = match r with Req_fixed _ _ _ => true | Req_regex _ _ _ _ => false end
  end.

(** The locale profile is set up exactly when [wordinit] has been
    entered, which has happened at most once. *)
Definition init_once (w : World) : Prop :=
  if initialized w
  then entries Call_wordinit (engine_log w) = 1%nat /\
       localeinfo (globals w) = ascii_profile
  else entries Call_wordinit (engine_log w) = 0%nat.

End Gnu.

(** ** pcre2_wrapper.c *)

Module Pcre.

(** [PcreContext]; [code] is [None] for a null [pcre2_code *]. *)
Record PcreContext (pcre2_code : Type) := mkPcreContext {
  code : option pcre2_code;
  match_data : ptr;
  match_context : ptr;
  error_code : Z;
  error_offset : Z
}.
Arguments mkPcreContext {pcre2_code} code match_data match_context error_code error_offset.
Arguments code {pcre2_code} p.
Arguments match_data {pcre2_code} p.
Arguments match_context {pcre2_code} p.
Arguments error_code {pcre2_code} p.
Arguments error_offset {pcre2_code} p.

(** [PcreMatch]; the field [end] is spelt [end_]. *)
Record PcreMatch := mkPcreMatch {
  start : Z;
  end_ : Z;
  valid : Z
}.

Definition sizeof_PcreContext : Z := 40.

(** How [pcre2_find_all] ends: it returns [ret] after storing
    [results] into the caller's array, or [count++] overflows [int];
    [Out_of_fuel] is the loop model running out of steps. *)
Inductive find_all_result :=
| Found (ret : Z) (results : list PcreMatch)
| Undefined
| Out_of_fuel.

Section Wrapper.

(** The PCRE2 library.  [pcre2_compile] yields the code (or null) and
    the values left in the error-code and error-offset out parameters;
    [pcre2_match] yields the return code and [ovector[0]], [ovector[1]]
    of the match data after the call. *)
Variable pcre2_code : Type.
Variable pcre2_compile : string -> Z -> Z -> option pcre2_code * Z * Z.
Variable pcre2_match : pcre2_code -> string -> Z -> Z -> Z -> Z * Z * Z.
Variable pcre2_get_error_message : Z -> string.
Variable PCRE2_UTF PCRE2_CASELESS PCRE2_MULTILINE : Z.
Variable PCRE2_ERROR_NOMATCH : Z.

(** [pcre2_match_data_create_from_pattern] and
    [pcre2_match_context_create] with a null general context draw on
    the C allocator. *)
Variable sizeof_match_data sizeof_match_context : Z.

Definition pcre2_compile_pattern (pattern : string) (pattern_len : Z)
    (case_insensitive multiline : Z) : Proc (option (PcreContext pcre2_code)) :=
  p <- malloc sizeof_PcreContext ;;
  if is_null p then ret None
  else
    let flags := PCRE2_UTF in
    let flags := if negb (case_insensitive =? 0) then Z.lor flags PCRE2_CASELESS else flags in
    let flags := if negb (multiline =? 0) then Z.lor flags PCRE2_MULTILINE else flags in
    let '(c, ecode, eoffset) := pcre2_compile pattern pattern_len flags in
    match c with
    | None => ret (Some (mkPcreContext None None None ecode eoffset))
    | Some _ =>
      md <- alloc_request sizeof_match_data ;;
      mc <- alloc_request sizeof_match_context ;;
      if is_null md || is_null mc then ret None
      else ret (Some (mkPcreContext c md mc ecode eoffset))
    end.

Definition pcre2_is_valid (ctx : option (PcreContext pcre2_code)) : Z :=
  match ctx with
  | Some c => match code c with Some _ => 1 | None => 0 end
  | None => 0
  end.

(** [pcre2_wrapper_get_error_message (ctx, buffer, buffer_len)]: the
    text left in the buffer, [None] when the buffer is not written.
    [buffer] tells whether the buffer pointer is non-null. *)
Definition pcre2_wrapper_get_error_message (ctx : option (PcreContext pcre2_code))
    (buffer : bool) (buffer_len : Z) : option string :=
  match ctx with
  | Some c =>
    if negb buffer || (buffer_len =? 0) then None
    else
      match code c with
      | Some _ => Some ""
      | None =>
        Some (String.substring 0 (Z.to_nat (buffer_len - 1))
                (pcre2_get_error_message (error_code c)))
      end
  | None => None
  end.

Definition pcre2_get_error_offset (ctx : option (PcreContext pcre2_code)) : Z :=
  match ctx with
  | Some c => error_offset c
  | None => 0
  end.

(** [pcre2_find_first]: the returned [int] and the contents of
    [*result] after the call ([result] is [None] for a null pointer). *)
Definition pcre2_find_first (ctx : option (PcreContext pcre2_code))
    (text : option string) (text_len start_offset : Z) (result : option PcreMatch)
  : Z * option PcreMatch :=
  match ctx, text, result with
  | Some c, Some t, Some r =>
    match code c with
    | Some cd =>
      let r := mkPcreMatch (start r) (end_ r) 0 in
      let '(rc, ov0, ov1) := pcre2_match cd t text_len start_offset 0 in
      if rc <? 0 then
        if rc =? PCRE2_ERROR_NOMATCH then (0, Some r) else (rc, Some r)
      else (1, Some (mkPcreMatch ov0 ov1 1))
    | None => (-1, result)
    end
  | _, _, _ => (-1, result)
  end.

(** The number of spans a [pcre2_find_all] call reports. *)
Definition found_count (r : find_all_result) : option Z :=
  match r with
  | Found n _ => Some n
  | _ => None
  end.

(** The zero-width spans at the [n] offsets from [k] on. *)
Fixpoint empty_spans (k : Z) (n : nat) : list PcreMatch :=
  match n with
  | O => []
  | S n' => mkPcreMatch k k 1 :: empty_spans (k + 1) n'
  end.

(** The [while] loop of [pcre2_find_all]; [results] holds the entries
    [results[0 .. count-1]] stored so far. *)
Fixpoint find_all_loop (fuel : nat) (cd : pcre2_code) (text : string)
    (text_len max_results : Z) (offset count : Z) (results : list PcreMatch)
  : find_all_result :=
  match fuel with
  | O => Out_of_fuel
  | S fuel' =>
    if (offset <? text_len) && (count <? max_results) then
      let '(rc, ov0, ov1) := pcre2_match cd text text_len offset 0 in
      if rc <? 0 then
        if rc =? PCRE2_ERROR_NOMATCH then Found count results
        else Found rc results
      else if count =? INT_MAX then Undefined
      else
        let results' := (results ++ [mkPcreMatch ov0 ov1 1])%list in
        let offset' := if ov0 =? ov1 then size_add ov1 1 else ov1 in
        find_all_loop fuel' cd text text_len max_results offset' (count + 1) results'
    else Found count results
  end.

(** [pcre2_find_all (ctx, text, text_len, results, max_results)];
    [results] tells whether the array pointer is non-null.  Every
    iteration increments [count], so [max_results] iterations and the
    final test are all the loop can take. *)
Definition pcre2_find_all (ctx : option (PcreContext pcre2_code))
    (text : option string) (text_len : Z) (results : bool) (max_results : Z)
  : find_all_result :=
  match ctx, text, results with
  | Some c, Some t, true =>
    match code c with
    | Some cd =>
      find_all_loop (S (Z.to_nat max_results)) cd t text_len max_results 0 0 []
    | None => Found (-1) []
    end
  | _, _, _ => Found (-1) []
  end.

End Wrapper.

(** The spans of [rs] lie in the text from offset [k] on, one after the
    other: each starts at or after the end of the one before. *)
Fixpoint spans_from (text_len k : Z) (rs : list PcreMatch) : Prop :=
  match rs with
  | [] => True
  | r :: rest =>
    k <= start r /\ start r <= end_ r /\ end_ r <= text_len /\
    spans_from text_len (end_ r) rest
  end.

End Pcre.

(** ** Engines used to run the wrappers on concrete inputs *)

Module LineEngine.

(** [occurs kw s]: the keyword occurs somewhere in [s]. *)
Fixpoint occurs (kw s : string) : bool :=
  String.prefix kw s ||
  match s with
  | EmptyString => false
  | String _ s' => occurs kw s'
  end.

(** The lines of a buffer, without their terminators; [cur] is the part
    of the current line already read. *)
Fixpoint lines_of (s cur : string) : list string :=
  match s with
  | EmptyString => match cur with EmptyString => [] | _ => [cur] end
  | String c s' =>
    if Ascii.eqb c newline then cur :: lines_of s' EmptyString
    else lines_of s' (cur ++ String c EmptyString)
  end.

(** The first line that contains the keyword: its offset and its length
    with the terminator; [(-1, 0)] when there is none. *)
Fixpoint first_line (kw : string) (ls : list string) (off : Z) : Z * Z :=
  match ls with
  | [] => (-1, 0)
  | l :: rest =>
    let len := Z.of_nat (String.length l) + 1 in
    if occurs kw l then (off, len) else first_line kw rest (off + len)
  end.

Definition handle : Type := string.

(** Modelled from the spec: the line-search engine behind [Fcompile],
    [GEAcompile], [Fexecute] and [EGexecute] is not part of the wrapper's
    translation units.  This stand-in searches for the pattern as a
    literal keyword and is line-oriented as the wrapper's comment and
    the spec describe the engine: it reports the offset of the start of
    the matching line and the length of that line including its
    newline, and a negative value when no line matches. *)
Definition Fcompile (g : Globals) (pattern : string) (size : Z) (syntax : Z)
    (exact : bool) : engine_reply (option handle) :=
  Eng_ret (Some (String.substring 0 (Z.to_nat (size - 1)) pattern)).

(** Modelled from the spec: [GEAcompile] is outside the wrapper's
    translation units; the stand-in keeps the pattern as a keyword. *)
Definition GEAcompile (g : Globals) (pattern : string) (size : Z) (syntax : Z)
    (exact : bool) : engine_reply (option handle) :=
  Eng_ret (Some (String.substring 0 (Z.to_nat size) pattern)).

(** Modelled from the spec: [Fexecute] is outside the wrapper's
    translation units; the stand-in reports the first line of the
    buffer that contains the keyword - the offset of the line and its
    length with the newline - and [-1] when no line does. *)
Definition Fexecute (g : Globals) (h : handle) (buf : string) (size : Z)
  : engine_reply (Z * Z) :=
  Eng_ret (first_line h (lines_of (String.substring 0 (Z.to_nat size) buf) EmptyString) 0).

(** Modelled from the spec: [EGexecute] is outside the wrapper's
    translation units; the stand-in searches as [Fexecute] does. *)
Definition EGexecute := Fexecute.

(** Modelled from the spec: an engine whose compilation runs out of
    memory and takes the fatal path the spec describes. *)
Definition GEAcompile_fatal (g : Globals) (pattern : string) (size : Z) (syntax : Z)
    (exact : bool) : engine_reply (option handle) :=
  Eng_fatal.

(** The two syntax profiles as the wrapper spells them out, over the
    bit values of glibc's [regex.h]. *)
Definition RE_SYNTAX_GREP : Z := 66310.
Definition RE_SYNTAX_EGREP : Z := 108828.
Definition RE_ICASE : Z := 4194304.

(** The wrapper over this engine. *)
Definition compile : Gnu.compile_req -> Proc (option (Gnu.GnuSearchContext handle)) :=
  Gnu.compile handle Fcompile GEAcompile RE_SYNTAX_GREP RE_SYNTAX_EGREP RE_ICASE.

Definition execute :=
  Gnu.gnu_grep_execute handle Fexecute EGexecute.

Definition compile_regex_fatal :=
  Gnu.gnu_grep_compile_regex handle GEAcompile_fatal
    RE_SYNTAX_GREP RE_SYNTAX_EGREP RE_ICASE.

(** A buffer of one line. *)
Definition line (s : string) : string := s ++ String newline EmptyString.

(** The state after compiling the literal [cat], case-sensitive, at
    program start, and the context that call returns. *)
Definition cat_req : Gnu.compile_req := Gnu.Req_fixed "cat" 3 false.
Definition cat_world : World := world_of (compile cat_req (initial_world [])).
Definition cat_ctx : option (Gnu.GnuSearchContext handle) :=
  Some (Gnu.mkCtx (Some "cat") true).

(** Then the literal [dog] is compiled, case-insensitive. *)
Definition dog_req : Gnu.compile_req := Gnu.Req_fixed "dog" 3 true.
Definition dog_world : World := world_of (compile dog_req cat_world).

End LineEngine.

Module EmptyPattern.

(** Modelled from the spec: the PCRE2 library is not part of the
    wrapper's translation units.  This stand-in is a compiled pattern
    that matches the empty string at every position: a search from
    [offset] succeeds with the zero-width span [(offset, offset)]. *)
Definition pcre2_match (cd : unit) (text : string) (text_len offset options : Z)
  : Z * Z * Z :=
  (1, offset, offset).

(** Modelled from the spec: a library that rejects every pattern at
    offset 1 with error 114 ("missing closing parenthesis"), as the
    spec's scenario of the malformed pattern [a(b] has it. *)
Definition pcre2_compile (pattern : string) (len flags : Z) : option unit * Z * Z :=
  (None, 114, 1).

Definition pcre2_get_error_message (e : Z) : string :=
  if e =? 114 then "missing closing parenthesis" else "".

Definition PCRE2_UTF : Z := 524288.
Definition PCRE2_CASELESS : Z := 8.
Definition PCRE2_MULTILINE : Z := 1024.
Definition PCRE2_ERROR_NOMATCH : Z := -1.

Definition ctx : option (Pcre.PcreContext unit) :=
  Some (Pcre.mkPcreContext (Some tt) (Some 1%nat) (Some 2%nat) 100 0).

(** Modelled from the spec: the PCRE2 library is not part of the
    wrapper's translation units.  This stand-in is the same pattern in
    a library that reads the text as UTF-8, as the wrapper asks with
    [PCRE2_UTF]: a search from an offset that falls on a continuation
    byte (inside a multibyte character) is refused with the error code
    -36, the offset being no character boundary. *)
Definition pcre2_match_utf (cd : unit) (text : string) (text_len offset options : Z)
  : Z * Z * Z :=
  match String.get (Z.to_nat offset) text with
  | Some c =>
    if ((128 <=? Ascii.nat_of_ascii c) && (Ascii.nat_of_ascii c <? 192))%nat
    then (-36, 0, 0)
    else (1, offset, offset)
  | None => (1, offset, offset)
  end.

(** The two bytes of the letter e with an acute accent in UTF-8. *)
Definition e_acute : string :=
  String (Ascii.ascii_of_nat 195) (String (Ascii.ascii_of_nat 169) EmptyString).

Definition find_all :=
  Pcre.pcre2_find_all unit pcre2_match PCRE2_ERROR_NOMATCH.

Definition find_all_utf :=
  Pcre.pcre2_find_all unit pcre2_match_utf PCRE2_ERROR_NOMATCH.

Definition compile_pattern :=
  Pcre.pcre2_compile_pattern unit pcre2_compile
    PCRE2_UTF PCRE2_CASELESS PCRE2_MULTILINE 64 64.

End EmptyPattern.

Module SpecEngine.

(** What a search may read of the globals: all of them but
    [match_icase]. *)
Definition exec_view (g : Globals) : bool * bool * ascii * LocaleInfo :=
  (match_words g, match_lines g, eolbyte g, localeinfo g).

Section Engine.

(** The compiled representation, and the search over a compiled
    pattern: any function of the compiled pattern, the globals other
    than [match_icase], the buffer and its length. *)
Variable automaton : Type.
Variable search_fixed search_regex :
  automaton -> bool * bool * ascii * LocaleInfo -> string -> Z -> engine_reply (Z * Z).

(** Modelled from the spec: [Fexecute] is not part of the wrapper's
    translation units.  By the spec the case-insensitivity of a
    compiled pattern is a flag fixed at compile time, changed only by
    compiling again, and the engine consults the process-wide locale
    profile: a search is determined by the compiled pattern, the
    buffer and the globals other than [match_icase]. *)
Definition Fexecute (g : Globals) (h : automaton) (buf : string) (size : Z)
  : engine_reply (Z * Z) :=
  search_fixed h (exec_view g) buf size.

(** Modelled from the spec: [EGexecute] is not part of the wrapper's
    translation units; as for [Fexecute], a search is determined by the
    compiled pattern, the buffer and the globals other than
    [match_icase]. *)
Definition EGexecute (g : Globals) (h : automaton) (buf : string) (size : Z)
  : engine_reply (Z * Z) :=
  search_regex h (exec_view g) buf size.

End Engine.

(** An instance: literal keywords, folded to lower case when the
    pattern was compiled with [match_icase] set. *)
Definition lower (c : ascii) : ascii :=
  let n := Ascii.nat_of_ascii c in
  if ((65 <=? n) && (n <=? 90))%nat then Ascii.ascii_of_nat (n + 32) else c.

Fixpoint fold_case (s : string) : string :=
  match s with
  | EmptyString => EmptyString
  | String c s' => String (lower c) (fold_case s')
  end.

Record keyword := mkKeyword {
  kw_text : string;
  kw_icase : bool
}.

(** Modelled from the spec: [Fcompile] is not part of the wrapper's
    translation units; the stand-in keeps the pattern without its
    newline, with the case flag that [match_icase] holds during the
    compile call. *)
Definition Fcompile (g : Globals) (pattern : string) (size : Z) (syntax : Z)
    (exact : bool) : engine_reply (option keyword) :=
  Eng_ret (Some (mkKeyword (String.substring 0 (Z.to_nat (size - 1)) pattern)
                           (match_icase g))).

(** Modelled from the spec: [GEAcompile] is not part of the wrapper's
    translation units; the stand-in keeps the pattern as a keyword,
    with the case flag that [match_icase] holds during the compile
    call. *)
Definition GEAcompile (g : Globals) (pattern : string) (size : Z) (syntax : Z)
    (exact : bool) : engine_reply (option keyword) :=
  Eng_ret (Some (mkKeyword (String.substring 0 (Z.to_nat size) pattern)
                           (match_icase g))).

(** The line-oriented search for a keyword, case-folded by the flag of
    the compiled pattern. *)
Definition search (k : keyword) (view : bool * bool * ascii * LocaleInfo)
    (buf : string) (size : Z) : engine_reply (Z * Z) :=
  let text := String.substring 0 (Z.to_nat size) buf in
  if kw_icase k
  then Eng_ret (LineEngine.first_line (fold_case (kw_text k))
                  (LineEngine.lines_of (fold_case text) EmptyString) 0)
  else Eng_ret (LineEngine.first_line (kw_text k)
                  (LineEngine.lines_of text EmptyString) 0).

Definition compile :=
  Gnu.compile keyword Fcompile GEAcompile
    LineEngine.RE_SYNTAX_GREP LineEngine.RE_SYNTAX_EGREP LineEngine.RE_ICASE.

Definition execute :=
  Gnu.gnu_grep_execute keyword (Fexecute keyword search) (EGexecute keyword search).

(** The case-sensitive [cat] compiled at program start, then the
    case-insensitive [DOG]. *)
Definition cat_world : World :=
  world_of (compile (Gnu.Req_fixed "cat" 3 false) (initial_world [])).
Definition cat_ctx : option (Gnu.GnuSearchContext keyword) :=
  Some (Gnu.mkCtx (Some (mkKeyword "cat" false)) true).
Definition dog_world : World :=
  world_of (compile (Gnu.Req_fixed "DOG" 3 true) cat_world).
Definition dog_ctx : option (Gnu.GnuSearchContext keyword) :=
  Some (Gnu.mkCtx (Some (mkKeyword "DOG" true)) true).

End SpecEngine.

(** * Properties *)

(** ** Machine arithmetic *)

Lemma SIZE_MOD_pos : 0 < SIZE_MOD.
Proof. reflexivity. Qed.

Lemma to_size_small z : is_size z -> to_size z = z.
Proof.
  unfold is_size, to_size, SIZE_MAX. intros H.
  apply Z.mod_small. lia.
Qed.

Lemma to_size_range z : is_size (to_size z).
Proof.
  unfold is_size, to_size, SIZE_MAX.
  pose proof (Z.mod_pos_bound z SIZE_MOD SIZE_MOD_pos). lia.
Qed.

(** The division test of [reallocarray] is the exact overflow test. *)
Lemma div_guard_iff m n s :
  0 < n -> (s > m / n <-> n * s > m).
Proof.
  intros Hn. split; intros H.
  - pose proof (Z.mul_succ_div_gt m n Hn). nia.
  - apply Z.lt_gt, Z.div_lt_upper_bound; lia.
Qed.

(** ** The allocator *)

Lemma alloc_request_log bytes w :
  alloc_log (world_of (alloc_request bytes w)) = bytes :: alloc_log w.
Proof.
  unfold alloc_request.
  destruct (alloc_script w) as [|[] rest]; reflexivity.
Qed.

(** With nothing scripted to fail, a request is served. *)
Lemma alloc_request_served bytes w :
  alloc_script w = [] ->
  alloc_request bytes w
  = Returned (Some (List.length (alloc_log w))) (set_alloc [] (bytes :: alloc_log w) w).
Proof.
  intros H. unfold alloc_request. rewrite H. reflexivity.
Qed.

(** ** gnulib_stubs.c *)

Module StubsFacts.
Import Stubs.

(** C9: [reallocarray] returns [NULL] with [errno = ENOMEM] and without
    any request to the allocator exactly when [nmemb] is nonzero and
    [size > SIZE_MAX / nmemb], which is exactly when [nmemb * size]
    exceeds [SIZE_MAX]; otherwise it is [realloc] of [nmemb * size]
    bytes, the product being exact. *)
Theorem reallocarray_overflow_guard (p : ptr) (nmemb size : Z) (w : World) :
  is_size nmemb -> is_size size ->
  (nmemb * size > SIZE_MAX <-> nmemb <> 0 /\ size > SIZE_MAX / nmemb) /\
  (nmemb <> 0 /\ size > SIZE_MAX / nmemb ->
     reallocarray p nmemb size w = Returned None (set_errno ENOMEM w) /\
     errno (world_of (reallocarray p nmemb size w)) = ENOMEM /\
     alloc_log (world_of (reallocarray p nmemb size w)) = alloc_log w) /\
  (~ (nmemb <> 0 /\ size > SIZE_MAX / nmemb) ->
     nmemb * size <= SIZE_MAX /\
     reallocarray p nmemb size w = realloc p (nmemb * size) w).
Proof.
  intros Hn Hs. unfold is_size in Hn, Hs.
  assert (Hiff : nmemb * size > SIZE_MAX <-> nmemb <> 0 /\ size > SIZE_MAX / nmemb).
  { split.
    - intros H. assert (nmemb <> 0) by (unfold SIZE_MAX, SIZE_MOD, SIZE_BITS in *; nia).
      split; [assumption|]. apply div_guard_iff; lia.
    - intros [H0 H]. apply div_guard_iff in H; lia. }
  split; [exact Hiff|]. split.
  - intros [H0 H]. unfold reallocarray.
    destruct (Z.eqb_spec nmemb 0) as [E|_]; [contradiction|].
    destruct (Z.gtb_spec size (SIZE_MAX / nmemb)) as [_|E]; [|lia].
    repeat split.
  - intros Hno.
    assert (Hle : nmemb * size <= SIZE_MAX).
    { destruct (Z_le_gt_dec (nmemb * size) SIZE_MAX) as [L|G]; [exact L|].
      exfalso. apply Hno, Hiff, G. }
    split; [exact Hle|]. unfold reallocarray.
    assert (Hsmall : size_mul nmemb size = nmemb * size).
    { unfold size_mul. apply to_size_small. unfold is_size. nia. }
    destruct (Z.eqb_spec nmemb 0) as [E|N]; simpl.
    + rewrite Hsmall. reflexivity.
    + destruct (Z.gtb_spec size (SIZE_MAX / nmemb)) as [G|_].
      * exfalso. apply Hno. split; [exact N | lia].
      * rewrite Hsmall. reflexivity.
Qed.

Lemma reallocarray_overflow_guard_witness :
  reallocarray None (2 ^ 63) 2 (initial_world [])
  = Returned None (set_errno ENOMEM (initial_world [])).
Proof.
  refine (proj1 (proj1 (proj2 (reallocarray_overflow_guard None (2 ^ 63) 2 (initial_world []) _ _)) _)).
  - unfold is_size, SIZE_MAX, SIZE_MOD, SIZE_BITS. lia.
  - unfold is_size, SIZE_MAX, SIZE_MOD, SIZE_BITS. lia.
  - split; [lia | reflexivity].
Defined.

(** [xpalloc] stores [xpalloc_count] into [*pn] and asks [xrealloc] for
    the wrapped product of the count and the element size. *)
Lemma xpalloc_unfold pa n n_incr_min n_max s :
  xpalloc pa n n_incr_min n_max s
  = (r <- xrealloc pa (size_mul (xpalloc_count n n_incr_min n_max) s) ;;
     ret (r, xpalloc_count n n_incr_min n_max)).
Proof. reflexivity. Qed.

Lemma xpalloc_served pa n n_incr_min n_max s w :
  alloc_script w = [] ->
  xpalloc pa n n_incr_min n_max s w
  = Returned (Some (List.length (alloc_log w)), xpalloc_count n n_incr_min n_max)
             (set_alloc [] (size_mul (xpalloc_count n n_incr_min n_max) s :: alloc_log w) w).
Proof.
  intros H. unfold xpalloc, xrealloc, realloc, bind.
  rewrite (alloc_request_served _ _ H). reflexivity.
Qed.

(** When [current_count + increment] does not wrap, the increment is
    [current_count], raised to [min_increment] when that is larger;
    without a clamping cap the new count is their sum, hence at least
    [current_count + min_increment]; with a cap that the sum would
    exceed the new count is exactly the cap. *)
Lemma xpalloc_count_growth (n n_incr_min n_max : Z) :
  is_size n -> is_size n_incr_min -> is_ptrdiff n_max ->
  n + Z.max n n_incr_min <= SIZE_MAX ->
  (n_max < 0 \/ n + Z.max n n_incr_min <= n_max ->
     xpalloc_count n n_incr_min n_max = n + Z.max n n_incr_min /\
     xpalloc_count n n_incr_min n_max >= n + n_incr_min) /\
  (0 <= n_max /\ n + Z.max n n_incr_min > n_max ->
     xpalloc_count n n_incr_min n_max = n_max).
Proof.
  unfold is_size, is_ptrdiff. intros Hn Hm Hx Hrep.
  assert (HM : SIZE_MAX = SIZE_MOD - 1) by reflexivity.
  assert (HP : PTRDIFF_MAX < SIZE_MOD) by reflexivity.
  unfold xpalloc_count.
  assert (Hincr : (if n <? n_incr_min then n_incr_min else n) = Z.max n n_incr_min).
  { destruct (Z.ltb_spec n n_incr_min); lia. }
  rewrite Hincr.
  assert (Hsum : size_add n (Z.max n n_incr_min) = n + Z.max n n_incr_min).
  { unfold size_add. apply to_size_small. unfold is_size. lia. }
  rewrite Hsum. split.
  - intros Hcap.
    assert (Hno : (n_max >=? 0) && (n + Z.max n n_incr_min >? to_size n_max) = false).
    { destruct (Z.geb_spec n_max 0) as [G|L]; [|reflexivity]. simpl.
      rewrite to_size_small by (unfold is_size; lia).
      destruct (Z.gtb_spec (n + Z.max n n_incr_min) n_max); [lia | reflexivity]. }
    rewrite Hno, Hsum. lia.
  - intros [H0 Hex].
    assert (Hyes : (n_max >=? 0) && (n + Z.max n n_incr_min >? to_size n_max) = true).
    { destruct (Z.geb_spec n_max 0) as [G|L]; [|lia]. simpl.
      rewrite to_size_small by (unfold is_size; lia).
      destruct (Z.gtb_spec (n + Z.max n n_incr_min) n_max); [reflexivity | lia]. }
    rewrite Hyes.
    rewrite (to_size_small n_max) by (unfold is_size; lia).
    unfold size_add, size_sub, to_size.
    rewrite Zplus_mod_idemp_r.
    replace (n + (n_max - n)) with n_max by lia.
    apply Z.mod_small. lia.
Qed.

Lemma xpalloc_count_growth_witness :
  xpalloc_count 8 1 (-1) = 16 /\ xpalloc_count 8 1 12 = 12.
Proof.
  split.
  - refine (proj1 (proj1 (xpalloc_count_growth 8 1 (-1) _ _ _ _) _)).
    + unfold is_size, SIZE_MAX, SIZE_MOD, SIZE_BITS. lia.
    + unfold is_size, SIZE_MAX, SIZE_MOD, SIZE_BITS. lia.
    + unfold is_ptrdiff, PTRDIFF_MIN, PTRDIFF_MAX. lia.
    + unfold SIZE_MAX, SIZE_MOD, SIZE_BITS. lia.
    + left. lia.
  - refine (proj2 (xpalloc_count_growth 8 1 12 _ _ _ _) _).
    + unfold is_size, SIZE_MAX, SIZE_MOD, SIZE_BITS. lia.
    + unfold is_size, SIZE_MAX, SIZE_MOD, SIZE_BITS. lia.
    + unfold is_ptrdiff, PTRDIFF_MIN, PTRDIFF_MAX. lia.
    + unfold SIZE_MAX, SIZE_MOD, SIZE_BITS. lia.
    + lia.
Defined.

(** When [n + n_incr] itself wraps, the cap is tested against the
    wrapped sum: growing 10 elements by at least [2^64 - 5] under a cap
    of 100 leaves 5 in [*pn]. *)
Example xpalloc_count_wrapped_sum :
  xpalloc_count 10 (2 ^ 64 - 5) 100 = 5.
Proof. reflexivity. Qed.

(** C8: a growth request whose sum [current_count + increment] exceeds
    the cap, and wraps.  An array of 10 elements is to grow by at
    least [2^64 - 5] under a cap of 100: [n + n_incr] wraps to 5, the
    cap test compares 5 with 100 and does not clamp, and [xpalloc]
    leaves 5 in [*pn] - not the cap, and less than the array had -
    and asks [xrealloc] for 5 bytes. *)
Theorem xpalloc_cap_missed_on_wrapped_sum :
  let w := initial_world [] in
  is_size 10 /\ is_size (2 ^ 64 - 5) /\ is_ptrdiff 100 /\
  10 + Z.max 10 (2 ^ 64 - 5) > 100 /\
  xpalloc None 10 (2 ^ 64 - 5) 100 1 w
  = Returned (Some 0%nat, 5) (set_alloc [] [5] w) /\
  snd (Some 0%nat, 5) <> 100 /\ snd (Some 0%nat, 5) < 10.
Proof.
  cbv zeta. repeat split; try discriminate.
Qed.

(** Whatever the operands, [xnmalloc] sends the wrapped product to the
    allocator. *)
Lemma xnmalloc_requests_wrapped n s w :
  alloc_log (world_of (xnmalloc n s w)) = (n * s) mod SIZE_MOD :: alloc_log w.
Proof.
  unfold xnmalloc, xmalloc, malloc, bind.
  pose proof (alloc_request_log (size_mul n s) w) as Hlog.
  destruct (alloc_request (size_mul n s) w) as [a w'| w' | w' | w']; simpl in *.
  - destruct (is_null a && negb (size_mul n s =? 0)); simpl; exact Hlog.
  - exact Hlog.
  - exact Hlog.
  - exact Hlog.
Qed.

(** So does [xpalloc], after storing the new count. *)
Lemma xpalloc_requests_wrapped pa n n_incr_min n_max s w :
  alloc_log (world_of (xpalloc pa n n_incr_min n_max s w))
  = (xpalloc_count n n_incr_min n_max * s) mod SIZE_MOD :: alloc_log w.
Proof.
  unfold xpalloc, xrealloc, realloc, bind.
  pose proof (alloc_request_log (size_mul (xpalloc_count n n_incr_min n_max) s) w) as Hlog.
  destruct (alloc_request _ w) as [a w'| w' | w' | w']; simpl in *.
  - destruct (is_null a && negb (_ =? 0)); simpl; exact Hlog.
  - exact Hlog.
  - exact Hlog.
  - exact Hlog.
Qed.

(** [xreallocarray] is the one helper that tests the product: on
    overflow it terminates the process before any request. *)
Lemma xreallocarray_overflow_dies p n s w :
  is_size n -> is_size s -> n * s > SIZE_MAX ->
  xreallocarray p n s w = Aborted (push_stderr "grep: memory exhausted" w).
Proof.
  unfold is_size. intros Hn Hs Hov. unfold xreallocarray, bind.
  assert (s <> 0) by (unfold SIZE_MAX, SIZE_MOD, SIZE_BITS in *; nia).
  destruct (Z.eqb_spec s 0) as [E|_]; [contradiction|].
  assert (HG : n > to_size (-1) / s).
  { apply div_guard_iff; [lia|]. change (to_size (-1)) with SIZE_MAX. lia. }
  destruct (Z.gtb_spec n (to_size (-1) / s)) as [_|E]; [|lia].
  reflexivity.
Qed.

(** C2: growth requests whose byte size is not representable.
    [xnmalloc (2^63, 2)] and [xpalloc] growing 2^62 elements of size 4
    both need 2^64 bytes or more; neither fails: the product wraps to 0,
    a request for 0 bytes goes to the allocator and the call returns
    its block (with [*pn = 2^63] for [xpalloc]). *)
Theorem growth_byte_size_wraps :
  let w := initial_world [] in
  2 ^ 63 * 2 > SIZE_MAX /\
  xnmalloc (2 ^ 63) 2 w = Returned (Some 0%nat) (set_alloc [] [0] w) /\
  xpalloc_count (2 ^ 62) 1 (-1) * 4 > SIZE_MAX /\
  xpalloc None (2 ^ 62) 1 (-1) 4 w = Returned (Some 0%nat, 2 ^ 63) (set_alloc [] [0] w).
Proof.
  cbv zeta. repeat split.
Qed.

End StubsFacts.

(** ** State predicates kept by a computation *)

Section Preserves.

Variable P : World -> Prop.

Lemma preserves_ret A (a : A) : preserves P (ret a).
Proof. intros w H. exact H. Qed.

Lemma preserves_abort A : preserves P (@abort A).
Proof. intros w H. exact H. Qed.

Lemma preserves_fault A : preserves P (@fault A).
Proof. intros w H. exact H. Qed.

Lemma preserves_get_world : preserves P get_world.
Proof. intros w H. exact H. Qed.

Lemma preserves_bind A B (m : Proc A) (k : A -> Proc B) :
  preserves P m -> (forall a, preserves P (k a)) -> preserves P (bind m k).
Proof.
  intros Hm Hk w H. unfold bind.
  specialize (Hm w H). destruct (m w) as [a w'|w'|w'|w']; simpl in *.
  - apply Hk, Hm.
  - exact Hm.
  - exact Hm.
  - exact Hm.
Qed.

Lemma preserves_modify (f : World -> World) :
  (forall w, P w -> P (f w)) -> preserves P (modify f).
Proof. intros Hf w H. apply Hf, H. Qed.

Lemma preserves_setjmp A (handler body : Proc A) :
  preserves P handler -> preserves P body ->
  preserves P (setjmp_error_jmp handler body).
Proof.
  intros Hh Hb w H. unfold setjmp_error_jmp.
  specialize (Hb w H). destruct (body w) as [a w'|w'|w'|w']; simpl in *.
  - exact Hb.
  - apply Hh, Hb.
  - exact Hb.
  - exact Hb.
Qed.

Lemma preserves_alloc_request bytes :
  (forall s l w, P w -> P (set_alloc s l w)) ->
  preserves P (alloc_request bytes).
Proof.
  intros Hf w H. unfold alloc_request.
  destruct (alloc_script w) as [|[] rest]; simpl; apply Hf, H.
Qed.

Lemma preserves_xalloc_die A :
  (forall s w, P w -> P (push_stderr s w)) ->
  preserves P (@Stubs.xalloc_die A).
Proof.
  intros Hf. unfold Stubs.xalloc_die.
  apply preserves_bind; [apply preserves_modify; intros; apply Hf; assumption|].
  intros _. apply preserves_abort.
Qed.

End Preserves.

(** ** gnu_grep_wrapper.c *)

Module GnuFacts.
Import Gnu.

Section Facts.

Variable handle : Type.
Variable Fcompile GEAcompile : Globals -> string -> Z -> Z -> bool -> engine_reply (option handle).
Variable Fexecute EGexecute : Globals -> handle -> string -> Z -> engine_reply (Z * Z).
Variable RE_SYNTAX_GREP RE_SYNTAX_EGREP RE_ICASE : Z.

Local Abbreviation compile_fixed := (gnu_grep_compile_fixed handle Fcompile).
Local Abbreviation compile_regex :=
  (gnu_grep_compile_regex handle GEAcompile RE_SYNTAX_GREP RE_SYNTAX_EGREP RE_ICASE).
Local Abbreviation execute := (gnu_grep_execute handle Fexecute EGexecute).
Local Abbreviation compile :=
  (Gnu.compile handle Fcompile GEAcompile RE_SYNTAX_GREP RE_SYNTAX_EGREP RE_ICASE).
Local Abbreviation run_ops :=
  (Gnu.run_ops handle Fcompile GEAcompile Fexecute EGexecute
               RE_SYNTAX_GREP RE_SYNTAX_EGREP RE_ICASE).
Local Abbreviation run_op :=
  (Gnu.run_op handle Fcompile GEAcompile Fexecute EGexecute
              RE_SYNTAX_GREP RE_SYNTAX_EGREP RE_ICASE).

(** *** Invalid input *)

(** C7: an execute call with a null context, a context without compiled
    pattern, a null text or a text length that is not positive returns
    -2 at once: the state, and with it the log of engine entries, is
    what it was.  A search in which the engine finds no line returns -1
    instead. *)
Theorem execute_rejects_invalid_input
    (ctx : option (GnuSearchContext handle)) (text : option string)
    (text_len : Z) (match_start : bool) (w : World) :
  ctx = None \/ (exists c, ctx = Some c /\ compiled c = None) \/
  text = None \/ text_len <= 0 ->
  execute ctx text text_len match_start w = Returned (-2, None) w /\
  engine_log (world_of (execute ctx text text_len match_start w)) = engine_log w /\
  (forall c h t n ms w0 r m,
     compiled c = Some h -> 0 < n ->
     (if is_fixed c then Fexecute (globals w0) h t n
      else EGexecute (globals w0) h t n) = Eng_ret (r, m) ->
     r < 0 ->
     returned_value (execute (Some c) (Some t) n ms w0) = Some (-1, None)).
Proof.
  intros Hbad.
  assert (E : execute ctx text text_len match_start w = Returned (-2, None) w).
  { unfold gnu_grep_execute.
    destruct ctx as [c|]; [|reflexivity].
    destruct text as [t|]; [|destruct (compiled c); reflexivity].
    destruct (compiled c) as [h|] eqn:Hc; [|reflexivity].
    destruct (Z.leb_spec text_len 0) as [_|Hpos]; [reflexivity|].
    exfalso. destruct Hbad as [H|[[c' [H1 H2]]|[H|H]]]; try discriminate; try lia.
    inversion H1; subst c'. congruence. }
  split; [exact E|]. split; [rewrite E; reflexivity|].
  intros c h t n ms w0 r m Hc Hn Hrep Hneg.
  unfold gnu_grep_execute. rewrite Hc.
  destruct (Z.leb_spec n 0) as [Hle|_]; [lia|].
  unfold bind, modify, setjmp_error_jmp, engine, bind, modify, get_world.
  destruct (is_fixed c); simpl; simpl in Hrep; rewrite Hrep; simpl;
    destruct (Z.ltb_spec r 0); try lia; reflexivity.
Qed.

(** *** The engine's fatal path *)

(** Nothing jumps to [error_jmp], so the handlers installed by [setjmp]
    never run. *)
Lemma engine_not_jumped A c (f : Globals -> engine_reply A) w :
  not_jumped (engine c f w).
Proof.
  unfold engine, bind, modify, get_world. simpl.
  destruct (f _); exact I.
Qed.

(** An engine call that takes the fatal path terminates the process. *)
Lemma engine_fatal A c (f : Globals -> engine_reply A) w :
  f (globals w) = Eng_fatal ->
  engine c f w = Aborted (push_stderr "grep: memory exhausted" (push_engine c w)).
Proof.
  intros H. unfold engine, bind, modify, get_world. simpl.
  rewrite H. reflexivity.
Qed.

Lemma gnu_grep_init_returns w :
  gnu_grep_init w
  = Returned tt
      (if initialized w then w
       else set_initialized true
              (push_engine Call_wordinit
                 (set_globals (set_localeinfo ascii_profile (globals w)) w))).
Proof.
  unfold gnu_grep_init, bind, get_world.
  destruct (initialized w); reflexivity.
Qed.

(** C3: a regex compilation during which the engine reports a fatal
    condition.  The checkpoint installed before the engine call is not
    reached: [xalloc_die] writes its message and aborts, and the compile
    call does not return. *)
Theorem compile_regex_fatal_aborts
    (pattern : string) (pattern_len : Z) (case_insensitive extended : bool)
    (w : World) :
  alloc_script w = [] ->
  (forall g syntax, GEAcompile g pattern pattern_len syntax false = Eng_fatal) ->
  exists w',
    compile_regex pattern pattern_len case_insensitive extended w = Aborted w' /\
    stderr w' = "grep: memory exhausted" :: stderr w /\
    returned_value (compile_regex pattern pattern_len case_insensitive extended w) = None.
Proof.
  intros Hscript Hfatal.
  assert (E : exists w',
             compile_regex pattern pattern_len case_insensitive extended w = Aborted w' /\
             stderr w' = "grep: memory exhausted" :: stderr w).
  { unfold gnu_grep_compile_regex.
    unfold bind at 1. rewrite gnu_grep_init_returns.
    unfold bind at 1. unfold modify at 1.
    unfold bind at 1. unfold modify at 1.
    unfold setjmp_error_jmp, bind, malloc.
    rewrite alloc_request_served
      by (destruct (initialized w); simpl; exact Hscript).
    cbn [is_null].
    rewrite engine_fatal by apply Hfatal.
    eexists. split; [reflexivity|].
    destruct (initialized w); reflexivity. }
  destruct E as [w' [E Herr]]. exists w'. rewrite E. repeat split. exact Herr.
Qed.

(** The same on the execute side. *)
Lemma execute_fatal_aborts c h t n ms w :
  compiled c = Some h -> 0 < n ->
  (forall g, Fexecute g h t n = Eng_fatal) ->
  (forall g, EGexecute g h t n = Eng_fatal) ->
  exists w', execute (Some c) (Some t) n ms w = Aborted w'.
Proof.
  intros Hc Hn HF HE. unfold gnu_grep_execute. rewrite Hc.
  destruct (Z.leb_spec n 0) as [Hle|_]; [lia|].
  unfold bind at 1. unfold modify at 1.
  unfold setjmp_error_jmp, bind.
  destruct (is_fixed c); rewrite engine_fatal by (first [apply HF | apply HE]);
    eexists; reflexivity.
Qed.


(** *** The error flag *)

Ltac keep_flag_step :=
  match goal with
  | |- preserves _ (ret _) => apply preserves_ret
  | |- preserves _ (@abort _) => apply preserves_abort
  | |- preserves _ (@fault _) => apply preserves_fault
  | |- preserves _ (Gnu.copy_pattern _ _) => unfold Gnu.copy_pattern
  | |- preserves _ get_world => apply preserves_get_world
  | |- preserves _ (setjmp_error_jmp _ _) => apply preserves_setjmp
  | |- preserves _ (bind _ _) => apply preserves_bind; [|intros ?]
  | |- preserves _ (modify _) =>
      apply preserves_modify; intros ? ?; first [assumption | reflexivity]
  | |- preserves _ (alloc_request _) =>
      apply preserves_alloc_request; intros ? ? ? ?; assumption
  | |- preserves _ (@Stubs.xalloc_die _) =>
      apply preserves_xalloc_die; intros ? ? ?; assumption
  | |- preserves _ (if ?b then _ else _) => destruct b
  | |- preserves _ (match ?x with _ => _ end) => destruct x
  end.

Ltac keep_flag := repeat keep_flag_step.

Lemma flag_clear_engine A c (f : Globals -> engine_reply A) :
  preserves flag_clear (engine c f).
Proof. unfold engine. keep_flag. Qed.

Lemma flag_clear_init : preserves flag_clear gnu_grep_init.
Proof. unfold gnu_grep_init, wordinit, engine. keep_flag. Qed.

Lemma flag_clear_compile_fixed p n ci :
  preserves flag_clear (compile_fixed p n ci).
Proof.
  unfold gnu_grep_compile_fixed, malloc.
  apply preserves_bind; [apply flag_clear_init | intros _].
  keep_flag; apply flag_clear_engine.
Qed.

Lemma flag_clear_compile_regex p n ci ex :
  preserves flag_clear (compile_regex p n ci ex).
Proof.
  unfold gnu_grep_compile_regex, malloc.
  apply preserves_bind; [apply flag_clear_init | intros _].
  keep_flag; apply flag_clear_engine.
Qed.

Lemma flag_clear_execute ctx text n ms :
  preserves flag_clear (execute ctx text n ms).
Proof.
  unfold gnu_grep_execute.
  destruct ctx as [c|]; [|keep_flag].
  destruct text as [t|]; [|destruct (compiled c); keep_flag].
  destruct (compiled c) as [h|]; [|keep_flag].
  destruct (n <=? 0); [keep_flag|].
  apply preserves_bind; [keep_flag | intros _].
  apply preserves_setjmp; [keep_flag|].
  apply preserves_bind.
  - destruct (is_fixed c); apply flag_clear_engine.
  - intros [r m]. keep_flag.
Qed.

Lemma flag_clear_run_op o : preserves flag_clear (run_op o).
Proof.
  destruct o; simpl.
  - apply preserves_bind; [apply flag_clear_compile_fixed | intros; apply preserves_ret].
  - apply preserves_bind; [apply flag_clear_compile_regex | intros; apply preserves_ret].
  - apply preserves_bind; [apply flag_clear_execute | intros; apply preserves_ret].
  - apply preserves_ret.
Qed.

Lemma flag_clear_run_ops os : preserves flag_clear (run_ops os).
Proof.
  induction os as [|o rest IH]; simpl.
  - apply preserves_ret.
  - apply preserves_bind; [apply flag_clear_run_op | intros _; exact IH].
Qed.

(** A call that gets as far as the engine has reset the flag on the
    way; a call that returns before that leaves the flag as it was. *)
Lemma execute_resets_flag c h t n ms w :
  compiled c = Some h -> 0 < n ->
  error_occurred (world_of (execute (Some c) (Some t) n ms w)) = 0.
Proof.
  intros Hc Hn. unfold gnu_grep_execute. rewrite Hc.
  destruct (Z.leb_spec n 0) as [Hle|_]; [lia|].
  unfold bind at 1. unfold modify at 1.
  assert (H : preserves flag_clear
                (setjmp_error_jmp (ret (-2, None))
                   (r <- (if is_fixed c
                          then engine Call_Fexecute (fun g => Fexecute g h t n)
                          else engine Call_EGexecute (fun g => EGexecute g h t n)) ;;
                    (let '(result, match_size) := r in
                     if result <? 0 then ret (-1, None)
                     else ret (match_size, if ms then Some result else None))))).
  { apply preserves_setjmp; [keep_flag|].
    apply preserves_bind.
    - destruct (is_fixed c); apply flag_clear_engine.
    - intros [r m]. keep_flag. }
  apply H. reflexivity.
Qed.

(** C10: after every program of compile, execute and free calls run from
    program start - whatever the allocator and the engine do, and
    also when the last call terminated the process -
    [gnu_grep_get_error] yields [NULL]: the flag is 0 initially and no
    call leaves it different from 0. *)
Theorem get_error_always_null (os : list (op handle)) (script : list bool) :
  gnu_grep_get_error (world_of (run_ops os (initial_world script))) = None /\
  (forall o w, error_occurred w = 0 -> error_occurred (world_of (run_op o w)) = 0).
Proof.
  split.
  - unfold gnu_grep_get_error.
    rewrite (flag_clear_run_ops os (initial_world script)); reflexivity.
  - intros o w H. apply (flag_clear_run_op o w H).
Qed.

(** *** What execute reports *)

(** C1: on a hit, execute hands on what the engine reported: the
    engine's return value goes to [*match_start] and the engine's
    [match_size] is the returned length.  No search inside the line
    takes place, so with the line-oriented engine that the wrapper's
    comment describes the reported span is the whole line, not the
    match inside it. *)
Theorem execute_passes_engine_span c h t n ms w r m :
  compiled c = Some h -> 0 < n ->
  (if is_fixed c then Fexecute (globals w) h t n
   else EGexecute (globals w) h t n) = Eng_ret (r, m) ->
  0 <= r ->
  returned_value (execute (Some c) (Some t) n ms w)
  = Some (m, if ms then Some r else None).
Proof.
  intros Hc Hn Hrep Hr. unfold gnu_grep_execute. rewrite Hc.
  destruct (Z.leb_spec n 0) as [Hle|_]; [lia|].
  unfold bind, modify, setjmp_error_jmp, engine, bind, modify, get_world.
  destruct (is_fixed c); simpl; simpl in Hrep; rewrite Hrep; simpl;
    destruct (Z.ltb_spec r 0); try lia; reflexivity.
Qed.

(** *** State shared by compiled patterns *)

Lemma preserves_apply A (P : World -> Prop) (m : Proc A) w :
  preserves P m -> P w -> P (world_of (m w)).
Proof. intros H. apply H. Qed.

Lemma globals_kept_engine G A c (f : Globals -> engine_reply A) :
  preserves (globals_are G) (engine c f).
Proof. unfold engine. keep_flag. Qed.

(** However a compile call ends, it has stored its case flag in
    [match_icase] and cleared [match_words] and [match_lines]. *)
Lemma compile_sets_globals req w :
  globals_are (set_match_flags (req_icase req) false false (init_globals w))
              (world_of (compile req w)).
Proof.
  set (G := set_match_flags (req_icase req) false false (init_globals w)).
  assert (Hstart : forall ci, ci = req_icase req ->
            globals_are G
              (set_globals
                 (set_match_flags ci false false
                    (globals (if initialized w then w
                              else set_initialized true
                                     (push_engine Call_wordinit
                                        (set_globals (set_localeinfo ascii_profile (globals w)) w)))))
                 (if initialized w then w
                  else set_initialized true
                         (push_engine Call_wordinit
                            (set_globals (set_localeinfo ascii_profile (globals w)) w))))).
  { intros ci ->. unfold G, init_globals, globals_are.
    destruct (initialized w) eqn:Hi; simpl; auto. }
  destruct req as [p n ci|p n ci ex]; simpl in *.
  - unfold gnu_grep_compile_fixed.
    unfold bind at 1. rewrite gnu_grep_init_returns.
    unfold bind at 1. unfold modify at 1.
    apply preserves_apply; [|apply Hstart; reflexivity].
    unfold malloc. keep_flag; apply globals_kept_engine.
  - unfold gnu_grep_compile_regex.
    unfold bind at 1. rewrite gnu_grep_init_returns.
    unfold bind at 1. unfold modify at 1.
    apply preserves_apply; [|apply Hstart; reflexivity].
    unfold malloc. keep_flag; apply globals_kept_engine.
Qed.

(** Execute depends on the state only through the globals the engine
    is given. *)
Lemma execute_value_frame ctx text n ms w w' :
  (forall h t, Fexecute (globals w) h t n = Fexecute (globals w') h t n) ->
  (forall h t, EGexecute (globals w) h t n = EGexecute (globals w') h t n) ->
  returned_value (execute ctx text n ms w) = returned_value (execute ctx text n ms w').
Proof.
  intros HF HE. unfold gnu_grep_execute.
  destruct ctx as [c|]; [|reflexivity].
  destruct text as [t|]; [|destruct (compiled c); reflexivity].
  destruct (compiled c) as [h|]; [|reflexivity].
  destruct (n <=? 0); [reflexivity|].
  unfold bind, modify, setjmp_error_jmp, engine, bind, modify, get_world.
  destruct (is_fixed c); simpl.
  - rewrite (HF h t). destruct (Fexecute (globals w') h t n) as [[r m]|]; simpl;
      [destruct (r <? 0)|]; reflexivity.
  - rewrite (HE h t). destruct (EGexecute (globals w') h t n) as [[r m]|]; simpl;
      [destruct (r <? 0)|]; reflexivity.
Qed.

(** Compiled patterns share the globals [match_icase], [match_words]
    and [match_lines], and a second compile call overwrites
    [match_icase] with its own case flag.  It leaves the rest of what
    the engine is given as the first compile left it; so, with an
    engine whose execute entry points do not read [match_icase], every
    execute call on the first pattern returns after the second compile
    what it returned before. *)
Lemma second_compile_frame
    (req1 req2 : compile_req) (w0 w1 w2 : World)
    (c1 c2 : option (GnuSearchContext handle)) :
  (forall g g' h t n, same_exec_view g g' -> Fexecute g h t n = Fexecute g' h t n) ->
  (forall g g' h t n, same_exec_view g g' -> EGexecute g h t n = EGexecute g' h t n) ->
  compile req1 w0 = Returned c1 w1 ->
  compile req2 w1 = Returned c2 w2 ->
  match_icase (globals w2) = req_icase req2 /\
  same_exec_view (globals w1) (globals w2) /\
  (forall text n ms,
     returned_value (execute c1 text n ms w2) = returned_value (execute c1 text n ms w1)).
Proof.
  intros HF HE H1 H2.
  pose proof (compile_sets_globals req1 w0) as [G1 I1].
  pose proof (compile_sets_globals req2 w1) as [G2 I2].
  rewrite H1 in G1, I1. rewrite H2 in G2, I2. simpl in G1, I1, G2, I2.
  unfold init_globals in G2. rewrite I1 in G2.
  assert (Hview : same_exec_view (globals w1) (globals w2)).
  { rewrite G2, G1. unfold same_exec_view. simpl. auto. }
  split; [rewrite G2; reflexivity|]. split; [exact Hview|].
  intros text n ms. apply execute_value_frame; intros h t.
  - symmetry. apply HF, Hview.
  - symmetry. apply HE, Hview.
Qed.

(** An engine that rejects the pattern by returning null makes the
    compile call return null. *)
Lemma compile_regex_rejected pattern pattern_len case_insensitive extended w :
  alloc_script w = [] ->
  (forall g syntax, GEAcompile g pattern pattern_len syntax false = Eng_ret None) ->
  returned_value (compile_regex pattern pattern_len case_insensitive extended w) = Some None.
Proof.
  intros Hscript Hrej. unfold gnu_grep_compile_regex.
  unfold bind at 1. rewrite gnu_grep_init_returns.
  unfold bind at 1. unfold modify at 1.
  unfold bind at 1. unfold modify at 1.
  unfold setjmp_error_jmp, bind, malloc.
  rewrite alloc_request_served
    by (destruct (initialized w); simpl; exact Hscript).
  cbn [is_null]. unfold engine, bind, modify, get_world.
  rewrite Hrej. reflexivity.
Qed.

End Facts.

End GnuFacts.

(** ** pcre2_wrapper.c *)

Module PcreFacts.
Import Pcre.

Section Facts.

Variable pcre2_code : Type.
Variable pcre2_compile : string -> Z -> Z -> option pcre2_code * Z * Z.
Variable pcre2_match : pcre2_code -> string -> Z -> Z -> Z -> Z * Z * Z.
Variable pcre2_get_error_message : Z -> string.
Variable PCRE2_UTF PCRE2_CASELESS PCRE2_MULTILINE : Z.
Variable PCRE2_ERROR_NOMATCH : Z.
Variable sizeof_match_data sizeof_match_context : Z.

Local Abbreviation compile_pattern :=
  (pcre2_compile_pattern pcre2_code pcre2_compile
     PCRE2_UTF PCRE2_CASELESS PCRE2_MULTILINE sizeof_match_data sizeof_match_context).
Local Abbreviation loop := (find_all_loop pcre2_code pcre2_match PCRE2_ERROR_NOMATCH).
Local Abbreviation find_all := (pcre2_find_all pcre2_code pcre2_match PCRE2_ERROR_NOMATCH).
Local Abbreviation get_error_message :=
  (pcre2_wrapper_get_error_message pcre2_code pcre2_get_error_message).

(** *** Termination of [pcre2_find_all] *)

(** Each iteration increments [count]; with more steps than
    [max_results - count] the loop model reaches the end of the loop. *)
Lemma find_all_loop_total fuel cd text text_len max_results :
  forall offset count results,
    (0 < fuel)%nat ->
    max_results - count < Z.of_nat fuel ->
    loop fuel cd text text_len max_results offset count results <> Out_of_fuel.
Proof.
  induction fuel as [|fuel IH]; intros offset count results Hpos Hfuel.
  - lia.
  - cbn [find_all_loop].
    destruct (Z.ltb_spec offset text_len); cbn [andb]; [|discriminate].
    destruct (Z.ltb_spec count max_results); [|discriminate].
    destruct (pcre2_match cd text text_len offset 0) as [[rc ov0] ov1].
    destruct (rc <? 0).
    + destruct (rc =? PCRE2_ERROR_NOMATCH); discriminate.
    + destruct (count =? INT_MAX); [discriminate|].
      apply IH; lia.
Qed.

Lemma pcre2_find_all_total ctx text text_len results max_results :
  find_all ctx text text_len results max_results <> Out_of_fuel.
Proof.
  unfold pcre2_find_all.
  destruct ctx as [c|]; [|discriminate].
  destruct text as [t|]; [|discriminate].
  destruct results; [|discriminate].
  destruct (code c) as [cd|]; [|discriminate].
  apply find_all_loop_total; lia.
Qed.

(** *** A pattern that matches the empty string everywhere *)

(** As long as the searches succeed with the zero-width span at the
    offset searched from, the loop walks the text one byte at a time:
    after [n] iterations from offset [j] it stands at offset [j + n]
    with [n] more spans stored. *)
Lemma find_all_loop_empty_run cd text text_len max_results k :
  0 <= k <= text_len -> text_len <= SIZE_MAX ->
  k <= max_results -> k <= INT_MAX ->
  (forall off, 0 <= off < k ->
     exists rc, 0 <= rc /\ pcre2_match cd text text_len off 0 = (rc, off, off)) ->
  forall n fuel j results,
    0 <= j -> j + Z.of_nat n = k ->
    loop (n + fuel) cd text text_len max_results j j results
    = loop fuel cd text text_len max_results k k (results ++ empty_spans j n)%list.
Proof.
  intros Hk HL Hmax Hint Hempty.
  induction n as [|n IH]; intros fuel j results Hj Hend.
  - cbn [Nat.add empty_spans]. rewrite app_nil_r.
    replace j with k by lia. reflexivity.
  - cbn [Nat.add find_all_loop empty_spans].
    assert (Hguard : (j <? text_len) && (j <? max_results) = true).
    { destruct (Z.ltb_spec j text_len); destruct (Z.ltb_spec j max_results);
        try reflexivity; lia. }
    rewrite Hguard.
    destruct (Hempty j) as [rc [Hrc Hm]]; [lia|]. rewrite Hm.
    destruct (Z.ltb_spec rc 0) as [Hneg|_]; [lia|].
    destruct (Z.eqb_spec j INT_MAX) as [E|_]; [lia|].
    rewrite Z.eqb_refl.
    assert (Hstep : size_add j 1 = j + 1).
    { unfold size_add. apply to_size_small. unfold is_size. lia. }
    rewrite Hstep.
    rewrite IH by lia.
    rewrite <- app_assoc. reflexivity.
Qed.


(** *** Failed compilation *)


End Facts.

End PcreFacts.

(** ** The wrappers run on concrete inputs *)

Module Scenarios.
Import LineEngine.

(** The literal [cat] searched in the one-line buffer
    ["the cat sat\n"].  The keyword sits at offset 4 and is 3 bytes
    long; execute stores 0 through [match_start] and returns 12: the
    offset and the length of the whole line, as the engine reported
    them.  In a buffer of three lines the result is again the span of
    the line that holds the keyword. *)
Example execute_reports_whole_line :
  compile cat_req (initial_world []) = Returned cat_ctx cat_world /\
  returned_value (execute cat_ctx (Some (line "the cat sat")) 12 true cat_world)
  = Some (12, Some 0) /\
  String.substring 4 3 (line "the cat sat") = "cat" /\
  String.length (line "the cat sat") = 12%nat /\
  returned_value
    (execute cat_ctx (Some (line "one" ++ line "the cat sat" ++ line "x")) 18 true cat_world)
  = Some (12, Some 4).
Proof. vm_compute. repeat split. Qed.

Lemma execute_passes_engine_span_witness :
  returned_value (execute cat_ctx (Some (line "the cat sat")) 12 true cat_world)
  = Some (12, Some 0).
Proof.
  unfold execute, cat_ctx.
  refine (GnuFacts.execute_passes_engine_span
            handle Fexecute EGexecute
            (Gnu.mkCtx (Some "cat") true) "cat" (line "the cat sat") 12 true
            cat_world 0 12 _ _ _ _).
  - reflexivity.
  - lia.
  - vm_compute. reflexivity.
  - lia.
Defined.

Lemma compile_regex_fatal_aborts_witness :
  exists w',
    compile_regex_fatal "a" 1 false true (initial_world []) = Aborted w' /\
    stderr w' = ["grep: memory exhausted"] /\
    returned_value (compile_regex_fatal "a" 1 false true (initial_world [])) = None.
Proof.
  unfold compile_regex_fatal.
  apply GnuFacts.compile_regex_fatal_aborts.
  - reflexivity.
  - intros g syntax. reflexivity.
Defined.

Lemma execute_rejects_invalid_input_witness :
  execute cat_ctx (Some "") 0 true cat_world = Returned (-2, None) cat_world.
Proof.
  unfold execute.
  refine (proj1 (GnuFacts.execute_rejects_invalid_input
                   handle Fexecute EGexecute cat_ctx (Some "") 0 true cat_world _)).
  right. right. right. lia.
Defined.

(** The case-sensitive [cat] is compiled, then the case-insensitive
    [dog].  Both calls return a context, and the [match_icase] that the
    engine is given on the next search with the [cat] pattern has
    changed from [false] to [true]. *)
Lemma compiled_patterns_share_match_icase :
  compile cat_req (initial_world []) = Returned cat_ctx cat_world /\
  compile dog_req cat_world = Returned (Some (Gnu.mkCtx (Some "dog") true)) dog_world /\
  match_icase (globals cat_world) = false /\
  match_icase (globals dog_world) = true /\
  globals dog_world <> globals cat_world.
Proof.
  repeat split; try (vm_compute; reflexivity).
  intros H. apply (f_equal match_icase) in H. vm_compute in H. discriminate H.
Qed.

Lemma second_compile_frame_witness :
  returned_value (execute cat_ctx (Some (line "the cat sat")) 12 true dog_world)
  = returned_value (execute cat_ctx (Some (line "the cat sat")) 12 true cat_world).
Proof.
  unfold execute.
  refine (proj2 (proj2 (GnuFacts.second_compile_frame
                          handle Fcompile GEAcompile Fexecute EGexecute
                          RE_SYNTAX_GREP RE_SYNTAX_EGREP RE_ICASE
                          cat_req dog_req (initial_world []) cat_world dog_world
                          cat_ctx (Some (Gnu.mkCtx (Some "dog") true))
                          _ _ _ _)) _ _ _).
  - intros g g' h t n _. reflexivity.
  - intros g g' h t n _. reflexivity.
  - vm_compute. reflexivity.
  - vm_compute. reflexivity.
Defined.





Lemma get_error_always_null_witness :
  Gnu.gnu_grep_get_error
    (world_of
       (Gnu.run_ops handle Fcompile GEAcompile Fexecute EGexecute
          RE_SYNTAX_GREP RE_SYNTAX_EGREP RE_ICASE
          [Gnu.Op_compile_fixed handle "cat" 3 false;
           Gnu.Op_execute handle cat_ctx (Some (line "the cat sat")) 12 true;
           Gnu.Op_execute handle cat_ctx None 0 false]
          (initial_world [false])))
  = None.
Proof.
  exact (proj1 (GnuFacts.get_error_always_null
                  handle Fcompile GEAcompile Fexecute EGexecute
                  RE_SYNTAX_GREP RE_SYNTAX_EGREP RE_ICASE _ _)).
Defined.

End Scenarios.

(** * Further properties of the three translation units *)

(** ** gnulib_stubs.c: scans, rotation, locale name *)

Module StubsExtra.
Import Stubs.

Lemma memrchr_loop_spec s c : forall n,
  (n <= List.length s)%nat ->
  match memrchr_loop s c n with
  | Ptr i =>
    (i < n)%nat /\ nth_error s i = Some (c mod 256) /\
    (forall j b, (i < j < n)%nat -> nth_error s j = Some b -> b <> c mod 256)
  | Null => forall j b, (j < n)%nat -> nth_error s j = Some b -> b <> c mod 256
  | Out_of_bounds => False
  end.
Proof.
  induction n as [|n IH]; intros Hn; cbn [memrchr_loop].
  - intros j b Hj. lia.
  - destruct (nth_error s n) as [b|] eqn:Hb.
    + destruct (Z.eqb_spec b (c mod 256)) as [E|N].
      * subst b. split; [lia|]. split; [exact Hb|]. intros j b' Hj. lia.
      * specialize (IH ltac:(lia)).
        destruct (memrchr_loop s c n) as [i| |].
        -- destruct IH as [Hi [Hsi Hafter]]. split; [lia|]. split; [exact Hsi|].
           intros j b' Hj Hjb. destruct (Nat.eq_dec j n) as [->|Hne].
           ++ congruence.
           ++ apply (Hafter j b'); [lia | exact Hjb].
        -- intros j b' Hj Hjb. destruct (Nat.eq_dec j n) as [->|Hne].
           ++ congruence.
           ++ apply (IH j b'); [lia | exact Hjb].
        -- exact IH.
    + apply nth_error_None in Hb. lia.
Qed.

(** X1: within the buffer, [memrchr] returns the last index below [n]
    that holds the byte [(unsigned char) c], and [NULL] exactly when no
    index below [n] holds it; it reads nothing outside the buffer. *)
Theorem memrchr_last_occurrence (s : list Z) (c n : Z) :
  0 <= n <= Z.of_nat (List.length s) ->
  match memrchr s c n with
  | Ptr i =>
    Z.of_nat i < n /\ nth_error s i = Some (c mod 256) /\
    (forall j b, (i < j)%nat -> Z.of_nat j < n ->
                 nth_error s j = Some b -> b <> c mod 256)
  | Null =>
    forall j b, Z.of_nat j < n -> nth_error s j = Some b -> b <> c mod 256
  | Out_of_bounds => False
  end.
Proof.
  intros Hn. unfold memrchr.
  pose proof (memrchr_loop_spec s c (Z.to_nat n) ltac:(lia)) as H.
  destruct (memrchr_loop s c (Z.to_nat n)) as [i| |].
  - destruct H as [Hi [Hsi Hafter]]. split; [lia|]. split; [exact Hsi|].
    intros j b Hij Hj. apply Hafter. lia.
  - intros j b Hj. apply H. lia.
  - exact H.
Qed.

Lemma memrchr_last_occurrence_witness :
  exists i, memrchr [97; 10; 98; 10; 99] 10 5 = Ptr i /\
            nth_error [97; 10; 98; 10; 99] i = Some 10.
Proof.
  assert (H0 : 0 <= 5 <= Z.of_nat (List.length [97; 10; 98; 10; 99])) by (simpl; lia).
  pose proof (memrchr_last_occurrence [97; 10; 98; 10; 99] 10 5 H0) as H.
  change (memrchr [97; 10; 98; 10; 99] 10 5) with (Ptr 3) in H.
  destruct H as [_ [H _]].
  exists 3%nat. split; [reflexivity | exact H].
Defined.

Lemma rawmemchr_from_spec c : forall s k,
  match rawmemchr_from s c k with
  | Ptr i =>
    (k <= i)%nat /\ nth_error s (i - k) = Some (c mod 256) /\
    (forall j b, (j < i - k)%nat -> nth_error s j = Some b -> b <> c mod 256)
  | Null => False
  | Out_of_bounds => ~ In (c mod 256) s
  end.
Proof.
  induction s as [|b rest IH]; intros k; cbn [rawmemchr_from].
  - intros H. exact H.
  - destruct (Z.eqb_spec b (c mod 256)) as [E|N].
    + subst b. split; [lia|]. rewrite Nat.sub_diag. split; [reflexivity|].
      intros j b Hj. lia.
    + specialize (IH (S k)).
      destruct (rawmemchr_from rest c (S k)) as [i| |].
      * destruct IH as [Hi [Hsi Hbefore]]. split; [lia|].
        replace (i - k)%nat with (S (i - S k)) by lia. split; [exact Hsi|].
        intros j b' Hj Hjb. destruct j as [|j]; simpl in Hjb.
        -- congruence.
        -- apply (Hbefore j b'); [lia | exact Hjb].
      * exact IH.
      * intros [E|Hin]; [congruence | exact (IH Hin)].
Qed.

(** X2: [rawmemchr] returns the first index that holds the byte
    [(unsigned char) c] when the buffer holds it at all, and never
    [NULL]; when the buffer does not hold the byte the scan leaves the
    buffer. *)
Theorem rawmemchr_first_occurrence (s : list Z) (c : Z) :
  (In (c mod 256) s ->
   exists i, rawmemchr s c = Ptr i /\ nth_error s i = Some (c mod 256) /\
             forall j b, (j < i)%nat -> nth_error s j = Some b -> b <> c mod 256) /\
  (~ In (c mod 256) s -> rawmemchr s c = Out_of_bounds).
Proof.
  unfold rawmemchr. pose proof (rawmemchr_from_spec c s 0) as H.
  destruct (rawmemchr_from s c 0) as [i| |].
  - destruct H as [_ [Hsi Hbefore]]. rewrite Nat.sub_0_r in Hsi, Hbefore. split.
    + intros _. exists i. split; [reflexivity|]. split; [exact Hsi | exact Hbefore].
    + intros Hnot. exfalso. apply Hnot. eapply nth_error_In. exact Hsi.
  - contradiction.
  - split; [intros Hin; contradiction | reflexivity].
Qed.

Lemma rawmemchr_first_occurrence_witness :
  exists i, rawmemchr [97; 10; 98; 10] 10 = Ptr i /\
            nth_error [97; 10; 98; 10] i = Some 10.
Proof.
  destruct (proj1 (rawmemchr_first_occurrence [97; 10; 98; 10] 10))
    as [i [H1 [H2 _]]].
  - simpl. right. left. reflexivity.
  - exists i. split; [exact H1 | exact H2].
Defined.

(** *** Rotation *)

Lemma size_high_bits x i :
  is_size x -> SIZE_BITS <= i -> Z.testbit x i = false.
Proof.
  intros Hx Hi. rewrite <- (to_size_small x Hx). unfold to_size, SIZE_MOD.
  apply Z.mod_pow2_bits_high. unfold SIZE_BITS in *. lia.
Qed.

Lemma size_of_bits y :
  0 <= y -> (forall i, SIZE_BITS <= i -> Z.testbit y i = false) -> is_size y.
Proof.
  intros Hy Hhigh.
  assert (E : y mod SIZE_MOD = y).
  { apply Z.bits_inj'. intros i Hi. unfold SIZE_MOD.
    destruct (Z_lt_le_dec i SIZE_BITS) as [L|G].
    - apply Z.mod_pow2_bits_low. exact L.
    - rewrite Z.mod_pow2_bits_high by (unfold SIZE_BITS in *; lia).
      symmetry. apply Hhigh, G. }
  rewrite <- E. apply to_size_range.
Qed.

Lemma size_bits_inj a b :
  is_size a -> is_size b ->
  (forall i, 0 <= i < SIZE_BITS -> Z.testbit a i = Z.testbit b i) -> a = b.
Proof.
  intros Ha Hb H. apply Z.bits_inj'. intros i Hi.
  destruct (Z_lt_le_dec i SIZE_BITS) as [L|G].
  - apply H. lia.
  - rewrite (size_high_bits a i Ha G), (size_high_bits b i Hb G). reflexivity.
Qed.

Lemma rotr_sz_spec (x n : Z) :
  is_size x -> 0 <= n ->
  exists y,
    rotr_sz x n = Some y /\ is_size y /\
    forall i, 0 <= i < SIZE_BITS ->
              Z.testbit y i = Z.testbit x ((i + n) mod SIZE_BITS).
Proof.
  intros Hx Hn. unfold rotr_sz.
  assert (HB : SIZE_BITS = 64) by reflexivity.
  rewrite Z.rem_mod_nonneg by (rewrite ?HB; lia).
  pose proof (Z.mod_pos_bound n SIZE_BITS ltac:(rewrite HB; lia)) as Hm.
  set (m := n mod SIZE_BITS) in *.
  assert (Hidx : forall i, 0 <= i < SIZE_BITS ->
            (i + n) mod SIZE_BITS
            = if i + m <? SIZE_BITS then i + m else i + m - SIZE_BITS).
  { intros i Hi. rewrite <- Zplus_mod_idemp_r. fold m.
    destruct (Z.ltb_spec (i + m) SIZE_BITS).
    - apply Z.mod_small. lia.
    - symmetry. apply Z.mod_unique with (q := 1); lia. }
  destruct (Z.eqb_spec m 0) as [E0|N0].
  - exists x. split; [reflexivity|]. split; [exact Hx|].
    intros i Hi. rewrite (Hidx i Hi), E0.
    destruct (Z.ltb_spec (i + 0) SIZE_BITS); [f_equal; lia | lia].
  - destruct (Z.ltb_spec m 0) as [Hneg|_]; [lia|].
    set (y := Z.lor (Z.shiftr x m) (to_size (Z.shiftl x (SIZE_BITS - m)))).
    assert (Hbit : forall i, 0 <= i ->
              Z.testbit y i
              = if i <? SIZE_BITS
                then (if i + m <? SIZE_BITS then Z.testbit x (i + m)
                      else Z.testbit x (i + m - SIZE_BITS))
                else false).
    { intros i Hi. unfold y. rewrite Z.lor_spec, Z.shiftr_spec by exact Hi.
      unfold to_size, SIZE_MOD.
      destruct (Z.ltb_spec i SIZE_BITS) as [L|G].
      - rewrite Z.mod_pow2_bits_low by exact L.
        rewrite Z.shiftl_spec by exact Hi.
        destruct (Z.ltb_spec (i + m) SIZE_BITS) as [L2|G2].
        + rewrite (Z.testbit_neg_r x (i - (SIZE_BITS - m))) by lia.
          apply orb_false_r.
        + rewrite (size_high_bits x (i + m) Hx G2), orb_false_l. f_equal. lia.
      - rewrite Z.mod_pow2_bits_high by lia.
        rewrite (size_high_bits x (i + m) Hx) by lia. reflexivity. }
    exists y. split; [reflexivity|]. split.
    + apply size_of_bits.
      * unfold y. apply Z.lor_nonneg. split.
        -- apply Z.shiftr_nonneg. unfold is_size in Hx. lia.
        -- apply to_size_range.
      * intros i Hi. rewrite Hbit by lia.
        destruct (Z.ltb_spec i SIZE_BITS); [lia | reflexivity].
    + intros i Hi. rewrite Hbit by lia. rewrite (Hidx i Hi).
      destruct (Z.ltb_spec i SIZE_BITS); [|lia].
      destruct (Z.ltb_spec (i + m) SIZE_BITS); reflexivity.
Qed.

(** X3: for a [size_t] value and a count that is not negative,
    [rotr_sz] is the rotation to the right by [n] positions of the 64
    bits of [x]: the result is a [size_t] whose bit [i] is bit
    [(i + n) mod 64] of [x].  A count that is a multiple of 64 gives
    [x] itself. *)
Theorem rotr_sz_bits (x n : Z) :
  is_size x -> 0 <= n ->
  (exists y,
     rotr_sz x n = Some y /\ is_size y /\
     forall i, 0 <= i < SIZE_BITS ->
               Z.testbit y i = Z.testbit x ((i + n) mod SIZE_BITS)) /\
  rotr_sz x (SIZE_BITS * n) = Some x.
Proof.
  intros Hx Hn. split; [exact (rotr_sz_spec x n Hx Hn)|].
  unfold rotr_sz.
  assert (HB : SIZE_BITS = 64) by reflexivity.
  rewrite Z.rem_mod_nonneg by (rewrite ?HB; lia).
  rewrite Z.mul_comm, Z_mod_mult. reflexivity.
Qed.

Lemma rotr_sz_bits_witness :
  exists y, rotr_sz 1 1 = Some y /\ is_size y /\ Z.testbit y 63 = true.
Proof.
  destruct (proj1 (rotr_sz_bits 1 1
                     ltac:(unfold is_size, SIZE_MAX, SIZE_MOD, SIZE_BITS; lia)
                     ltac:(lia)))
    as [y [H1 [H2 H3]]].
  exists y. split; [exact H1|]. split; [exact H2|].
  rewrite (H3 63); [reflexivity | unfold SIZE_BITS; lia].
Defined.

(** X4: rotating on by the remaining [64 - n mod 64] positions gives
    the value back. *)
Theorem rotr_sz_inverse (x n : Z) :
  is_size x -> 0 <= n ->
  exists y,
    rotr_sz x n = Some y /\
    rotr_sz y (SIZE_BITS - n mod SIZE_BITS) = Some x.
Proof.
  intros Hx Hn.
  assert (HB : SIZE_BITS = 64) by reflexivity.
  pose proof (Z.mod_pos_bound n SIZE_BITS ltac:(rewrite HB; lia)) as Hm.
  destruct (rotr_sz_spec x n Hx Hn) as [y [Hy [Hys Hbits]]].
  exists y. split; [exact Hy|].
  destruct (rotr_sz_spec y (SIZE_BITS - n mod SIZE_BITS) Hys ltac:(lia))
    as [z [Hz [Hzs Hzbits]]].
  rewrite Hz. f_equal. apply size_bits_inj; [exact Hzs | exact Hx |].
  intros i Hi. rewrite (Hzbits i Hi).
  rewrite Hbits by (apply Z.mod_pos_bound; lia).
  f_equal. rewrite Zplus_mod_idemp_l.
  symmetry. apply Z.mod_unique with (q := 1 + n / SIZE_BITS); [lia|].
  pose proof (Z.div_mod n SIZE_BITS ltac:(lia)). lia.
Qed.

Lemma rotr_sz_inverse_witness :
  exists y, rotr_sz 12345 7 = Some y /\ rotr_sz y (SIZE_BITS - 7 mod SIZE_BITS) = Some 12345.
Proof.
  apply rotr_sz_inverse.
  - unfold is_size, SIZE_MAX, SIZE_MOD, SIZE_BITS. lia.
  - lia.
Defined.

(** *** The locale name *)

Lemma substring0_length s : forall n,
  String.length (String.substring 0 n s) = Nat.min n (String.length s).
Proof.
  induction s as [|c s IH]; intros [|n]; simpl; try reflexivity.
  rewrite IH. reflexivity.
Qed.

Lemma substring0_prefix s : forall n,
  String.prefix (String.substring 0 n s) s = true.
Proof.
  induction s as [|c s IH]; intros [|n]; simpl; try reflexivity.
  destruct (Ascii.ascii_dec c c) as [_|N]; [apply IH | contradiction].
Qed.

Lemma prefix_refl s : String.prefix s s = true.
Proof.
  induction s as [|c s IH]; simpl; [reflexivity|].
  destruct (Ascii.ascii_dec c c) as [_|N]; [exact IH | contradiction].
Qed.

(** X5: [setlocale_null_r] returns 0 exactly when the locale name and
    its terminator fit into [bufsize] bytes, and then the buffer holds
    the whole name.  Whatever it returns, a string it leaves in the
    buffer is a prefix of the name and fits with its terminator; with
    [bufsize > 0] the buffer is always written. *)
Theorem setlocale_null_r_spec (locale : option string) (bufsize : Z) :
  0 <= bufsize ->
  (fst (setlocale_null_r locale bufsize) = 0 <->
   exists l, locale = Some l /\ Z.of_nat (String.length l) < bufsize) /\
  (fst (setlocale_null_r locale bufsize) = 0 ->
   snd (setlocale_null_r locale bufsize) = locale) /\
  (forall b, snd (setlocale_null_r locale bufsize) = Some b ->
             Z.of_nat (String.length b) < bufsize) /\
  (forall l b, locale = Some l ->
               snd (setlocale_null_r locale bufsize) = Some b ->
               String.prefix b l = true) /\
  (0 < bufsize -> snd (setlocale_null_r locale bufsize) <> None).
Proof.
  intros Hb. unfold setlocale_null_r.
  destruct locale as [l|].
  - destruct (Z.geb_spec (Z.of_nat (String.length l)) bufsize) as [G|L]; simpl.
    + repeat split.
      * intros H. discriminate H.
      * intros [l' [E H]]. inversion E; subst l'. lia.
      * intros H. discriminate H.
      * intros b. destruct (Z.gtb_spec bufsize 0); [|discriminate].
        intros E. inversion E; subst b. rewrite substring0_length. lia.
      * intros l' b E. inversion E; subst l'.
        destruct (bufsize >? 0); [|discriminate].
        intros E'. inversion E'; subst b. apply substring0_prefix.
      * intros Hpos. destruct (Z.gtb_spec bufsize 0); [discriminate | lia].
    + repeat split.
      * intros _. exists l. split; [reflexivity | exact L].
      * intros b E. inversion E; subst b. exact L.
      * intros l' b E E'. inversion E; inversion E'; subst. apply prefix_refl.
      * discriminate.
  - simpl. repeat split.
    + intros H. discriminate H.
    + intros [l [E _]]. discriminate E.
    + intros H. discriminate H.
    + intros b. destruct (Z.gtb_spec bufsize 0); [|discriminate].
      intros E. inversion E; subst b. simpl. lia.
    + intros l b E. discriminate E.
    + intros Hpos. destruct (Z.gtb_spec bufsize 0); [discriminate | lia].
Qed.

Lemma setlocale_null_r_spec_witness :
  snd (setlocale_null_r (Some "en_US.UTF-8") 6) <> None /\
  (forall b, snd (setlocale_null_r (Some "en_US.UTF-8") 6) = Some b ->
             Z.of_nat (String.length b) < 6).
Proof.
  pose proof (setlocale_null_r_spec (Some "en_US.UTF-8") 6 ltac:(lia))
    as [_ [_ [H3 [_ H5]]]].
  split; [apply H5; lia | exact H3].
Defined.

(** *** The checked allocators *)

(** X6: for a request that is not empty, [xmalloc] and [xrealloc]
    (size not 0) and [xcalloc] (neither operand 0) never return [NULL]:
    they return a block, or they write the diagnostic and terminate the
    process.  An empty request returns what the allocator gave, be it
    [NULL]. *)
Theorem xalloc_nonnull_or_dies (p : ptr) (n s : Z) (w : World) :
  (n <> 0 -> nonnull_or_dies w (xmalloc n w)) /\
  (n <> 0 -> nonnull_or_dies w (xrealloc p n w)) /\
  (n <> 0 -> s <> 0 -> nonnull_or_dies w (xcalloc n s w)) /\
  (exists q w', xmalloc 0 w = Returned q w').
Proof.
  assert (Hreq : forall b, b <> 0 ->
            nonnull_or_dies w
              (bind (alloc_request b)
                    (fun q => if is_null q && negb (b =? 0) then xalloc_die else ret q) w)).
  { intros b Hb. unfold bind, alloc_request.
    destruct (Z.eqb_spec b 0) as [E|_]; [contradiction|].
    destruct (alloc_script w) as [|[] rest]; simpl; try discriminate; reflexivity. }
  split; [exact (Hreq n)|]. split; [exact (Hreq n)|]. split.
  - intros Hn Hs. unfold xcalloc, calloc, bind.
    destruct (Z.eqb_spec n 0) as [E|_]; [contradiction|].
    destruct (Z.eqb_spec s 0) as [E|_]; [contradiction|].
    destruct (n * s >? SIZE_MAX); [reflexivity|].
    unfold alloc_request.
    destruct (alloc_script w) as [|[] rest]; simpl; try discriminate; reflexivity.
  - unfold xmalloc, malloc, bind, alloc_request.
    destruct (alloc_script w) as [|[] rest]; simpl; eexists; eexists; reflexivity.
Qed.

Lemma xalloc_nonnull_or_dies_witness :
  xmalloc 16 (initial_world [false])
  = Aborted (push_stderr "grep: memory exhausted"
               (set_alloc [] [16] (initial_world [false]))) /\
  nonnull_or_dies (initial_world [false]) (xmalloc 16 (initial_world [false])).
Proof.
  split; [reflexivity|].
  apply (proj1 (xalloc_nonnull_or_dies None 16 1 (initial_world [false]))).
  lia.
Defined.

(** X7: [xreallocarray] never hands a wrapped size to the allocator:
    when the product fits it is [xrealloc] of the exact product, and
    when it does not the allocator is not asked at all. *)
Theorem xreallocarray_exact (p : ptr) (n s : Z) (w : World) :
  is_size n -> is_size s ->
  (n * s <= SIZE_MAX -> xreallocarray p n s w = xrealloc p (n * s) w) /\
  (n * s > SIZE_MAX ->
     alloc_log (world_of (xreallocarray p n s w)) = alloc_log w /\
     returned_value (xreallocarray p n s w) = None).
Proof.
  intros Hn Hs. split.
  - intros Hfit. unfold is_size in Hn, Hs. unfold xreallocarray, bind.
    assert (Hsmall : size_mul n s = n * s).
    { unfold size_mul. apply to_size_small. unfold is_size. nia. }
    rewrite Hsmall.
    destruct (Z.eqb_spec s 0) as [E|N]; [reflexivity|]. simpl.
    destruct (Z.gtb_spec n (to_size (-1) / s)) as [G|_]; [|reflexivity].
    exfalso. apply Z.lt_gt in G. apply div_guard_iff in G; [|lia].
    change (to_size (-1)) with SIZE_MAX in G. lia.
  - intros Hov. rewrite (StubsFacts.xreallocarray_overflow_dies p n s w Hn Hs Hov).
    split; reflexivity.
Qed.

Lemma xreallocarray_exact_witness :
  xreallocarray None 3 8 (initial_world []) = xrealloc None 24 (initial_world []).
Proof.
  refine (proj1 (xreallocarray_exact None 3 8 (initial_world []) _ _) _).
  - unfold is_size, SIZE_MAX, SIZE_MOD, SIZE_BITS. lia.
  - unfold is_size, SIZE_MAX, SIZE_MOD, SIZE_BITS. lia.
  - unfold SIZE_MAX, SIZE_MOD, SIZE_BITS. lia.
Defined.

Lemma x2nrealloc_count n :
  0 <= n <= PTRDIFF_MAX -> xpalloc_count n 1 (-1) = Z.max 1 (2 * n).
Proof.
  intros Hn. unfold xpalloc_count. cbn [andb Z.geb Z.compare].
  assert (HP : PTRDIFF_MAX = 2 ^ 63 - 1) by reflexivity.
  assert (HM : SIZE_MAX = 2 ^ 64 - 1) by reflexivity.
  destruct (Z.ltb_spec n 1).
  - unfold size_add. rewrite to_size_small by (unfold is_size; lia). lia.
  - unfold size_add. rewrite to_size_small by (unfold is_size; lia). lia.
Qed.

(** X8: for an array of [n <= PTRDIFF_MAX] elements of size [s] whose
    doubled size [2 n s] (size [s] when the array is empty) is
    representable, [x2nrealloc] asks [xrealloc] for exactly that many
    bytes - room for [2 n] elements, for 1 element when the array is
    empty - and leaves that count, which is larger than [n], in
    [*pn]. *)
Theorem x2nrealloc_doubles (p : ptr) (n s : Z) (w : World) :
  0 <= n <= PTRDIFF_MAX -> 0 <= s -> Z.max 1 (2 * n) * s <= SIZE_MAX ->
  x2nrealloc p n s w
  = (r <- xrealloc p (Z.max 1 (2 * n) * s) ;; ret (r, Z.max 1 (2 * n))) w /\
  n < Z.max 1 (2 * n).
Proof.
  intros Hn Hs Hfit. split; [|lia].
  unfold x2nrealloc, xpalloc. rewrite (x2nrealloc_count n Hn).
  unfold size_mul. rewrite to_size_small by (unfold is_size; nia).
  reflexivity.
Qed.

Lemma x2nrealloc_doubles_witness :
  x2nrealloc None 5 4 (initial_world [])
  = Returned (Some 0%nat, 10) (set_alloc [] [40] (initial_world [])).
Proof.
  rewrite (proj1 (x2nrealloc_doubles None 5 4 (initial_world [])
                    ltac:(unfold PTRDIFF_MAX; lia) ltac:(lia)
                    ltac:(unfold SIZE_MAX, SIZE_MOD, SIZE_BITS; lia))).
  reflexivity.
Defined.

Lemma x2nrealloc_served p n s w :
  alloc_script w = [] -> 0 <= n <= PTRDIFF_MAX ->
  x2nrealloc p n s w
  = Returned (Some (List.length (alloc_log w)), Z.max 1 (2 * n))
             (set_alloc [] (size_mul (Z.max 1 (2 * n)) s :: alloc_log w) w).
Proof.
  intros Hs Hn. unfold x2nrealloc.
  rewrite (StubsFacts.xpalloc_served p n 1 (-1) s w Hs), (x2nrealloc_count n Hn).
  reflexivity.
Qed.

Lemma x2nrealloc_repeat_from s : forall k p n w,
  alloc_script w = [] -> 1 <= n -> n * 2 ^ Z.of_nat k <= 2 ^ 63 ->
  exists q w',
    x2nrealloc_repeat k p n s w = Returned (q, n * 2 ^ Z.of_nat k) w' /\
    (q = p \/ q <> None).
Proof.
  induction k as [|k IH]; intros p n w Hs Hn Hfit.
  - exists p, w. split; [|left; reflexivity].
    cbn [x2nrealloc_repeat]. unfold ret. f_equal. f_equal. simpl. lia.
  - cbn [x2nrealloc_repeat]. unfold bind.
    assert (Hpow : 2 ^ Z.of_nat (S k) = 2 * 2 ^ Z.of_nat k).
    { rewrite Nat2Z.inj_succ, Z.pow_succ_r by lia. reflexivity. }
    pose proof (Z.pow_pos_nonneg 2 (Z.of_nat k) ltac:(lia) ltac:(lia)) as Hpos.
    rewrite x2nrealloc_served by (try exact Hs; unfold PTRDIFF_MAX; nia).
    cbn [fst snd].
    destruct (IH (Some (List.length (alloc_log w))) (Z.max 1 (2 * n))
                 (set_alloc [] (size_mul (Z.max 1 (2 * n)) s :: alloc_log w) w))
      as [q [w' [E Hq]]]; [reflexivity | lia | nia |].
    exists q, w'. split.
    + rewrite E. f_equal. f_equal. nia.
    + right. destruct Hq as [->|Hq]; [discriminate | exact Hq].
Qed.

(** X9: a caller that starts with an empty array and calls
    [x2nrealloc] again and again, with an allocator that serves every
    request, is left with the counts 1, 2, 4, ...: after [k + 1] calls
    [*pn] holds [2^k] (for [k < 64]) and the pointer is not null. *)
Theorem x2nrealloc_repeat_geometric (k : nat) (p : ptr) (s : Z) (w : World) :
  alloc_script w = [] -> (k < 64)%nat ->
  exists q w',
    x2nrealloc_repeat (S k) p 0 s w = Returned (q, 2 ^ Z.of_nat k) w' /\
    q <> None.
Proof.
  intros Hs Hk. cbn [x2nrealloc_repeat]. unfold bind.
  rewrite x2nrealloc_served by (try exact Hs; unfold PTRDIFF_MAX; lia).
  cbn [fst snd]. change (Z.max 1 (2 * 0)) with 1.
  assert (Hpow : 2 ^ Z.of_nat k <= 2 ^ 63) by (apply Z.pow_le_mono_r; lia).
  destruct (x2nrealloc_repeat_from s k (Some (List.length (alloc_log w))) 1
              (set_alloc [] (size_mul 1 s :: alloc_log w) w))
    as [q [w' [E Hq]]]; [reflexivity | lia | lia |].
  exists q, w'. split.
  - rewrite E. f_equal. f_equal. lia.
  - destruct Hq as [->|Hq]; [discriminate | exact Hq].
Qed.

Lemma x2nrealloc_repeat_geometric_witness :
  exists q w',
    x2nrealloc_repeat 4 None 0 4 (initial_world []) = Returned (q, 2 ^ 3) w' /\
    q <> None.
Proof.
  apply (x2nrealloc_repeat_geometric 3 None 4 (initial_world [])).
  - reflexivity.
  - lia.
Defined.

(** *** Multibyte length *)

Section MbslenFacts.

Variable mbstate : Type.
Variable mbrlen : list Z -> mbstate -> Z * mbstate.

Lemma mbslen_loop_bound :
  (forall s st, 0 <= fst (mbrlen s st)) ->
  forall fuel s st len,
    (List.length s < fuel)%nat -> 0 <= len ->
    len + Z.of_nat (List.length s) <= SIZE_MAX ->
    match mbslen_loop mbstate mbrlen fuel s st len with
    | Len n => len <= n <= len + Z.of_nat (List.length s)
    | Overrun => True
    | No_fuel => False
    end.
Proof.
  intros Hsz. induction fuel as [|fuel IH]; intros s st len Hfuel Hlen Hfit.
  - lia.
  - cbn [mbslen_loop]. destruct s as [|b rest]; [simpl; lia|].
    pose proof (Hsz (b :: rest) st) as Hbytes.
    destruct (mbrlen (b :: rest) st) as [bytes st']. simpl in Hbytes.
    assert (Hinc : size_add len 1 = len + 1).
    { unfold size_add. apply to_size_small. unfold is_size.
      simpl List.length in Hfit. lia. }
    destruct ((bytes =? to_size (-1)) || (bytes =? to_size (-2))).
    + rewrite Hinc. specialize (IH rest st' (len + 1)).
      simpl List.length in *.
      destruct (mbslen_loop mbstate mbrlen fuel rest st' (len + 1));
        [| exact I | apply IH; lia].
      assert (len + 1 <= n <= len + 1 + Z.of_nat (List.length rest)) by (apply IH; lia).
      lia.
    + destruct (Z.eqb_spec bytes 0) as [E0|N0]; [lia|].
      destruct (Z.gtb_spec bytes (Z.of_nat (List.length (b :: rest)))) as [G|L];
        [exact I|].
      rewrite Hinc.
      specialize (IH (skipn (Z.to_nat bytes) (b :: rest)) st' (len + 1)).
      rewrite length_skipn in IH.
      destruct (mbslen_loop mbstate mbrlen fuel
                  (skipn (Z.to_nat bytes) (b :: rest)) st' (len + 1));
        [| exact I | apply IH; lia].
      assert (len + 1 <= n
              <= len + 1 + Z.of_nat (List.length (b :: rest) - Z.to_nat bytes))
        by (apply IH; lia).
      lia.
Qed.

Lemma mbslen_loop_len :
  (forall s st,
     fst (mbrlen s st) = to_size (-1) \/ fst (mbrlen s st) = to_size (-2) \/
     0 <= fst (mbrlen s st) <= Z.of_nat (List.length s)) ->
  forall fuel s st len,
    (List.length s < fuel)%nat -> 0 <= len ->
    len + Z.of_nat (List.length s) <= SIZE_MAX ->
    exists n,
      mbslen_loop mbstate mbrlen fuel s st len = Len n /\
      len <= n <= len + Z.of_nat (List.length s).
Proof.
  intros Hok.
  assert (Hsz : forall s st, 0 <= fst (mbrlen s st)).
  { intros s st. destruct (Hok s st) as [E|[E|E]]; try lia; rewrite E; discriminate. }
  intros fuel s st len Hfuel Hlen Hfit.
  pose proof (mbslen_loop_bound Hsz fuel s st len Hfuel Hlen Hfit) as Hb.
  assert (Hnot : mbslen_loop mbstate mbrlen fuel s st len <> Overrun).
  { clear Hb. revert s st len Hfuel Hlen Hfit.
    induction fuel as [|fuel IH]; intros s st len Hfuel Hlen Hfit; [lia|].
    cbn [mbslen_loop]. destruct s as [|b rest]; [discriminate|].
    pose proof (Hok (b :: rest) st) as Hbytes.
    destruct (mbrlen (b :: rest) st) as [bytes st']. simpl fst in Hbytes.
    assert (Hinc : size_add len 1 = len + 1).
    { unfold size_add. apply to_size_small. unfold is_size.
      simpl List.length in Hfit. lia. }
    destruct ((bytes =? to_size (-1)) || (bytes =? to_size (-2))) eqn:Herr.
    - rewrite Hinc. apply IH; simpl List.length in *; lia.
    - destruct (Z.eqb_spec bytes 0) as [E0|N0]; [discriminate|].
      apply orb_false_iff in Herr. destruct Herr as [H1 H2].
      apply Z.eqb_neq in H1. apply Z.eqb_neq in H2.
      destruct Hbytes as [E|[E|Hrange]]; [contradiction | contradiction |].
      destruct (Z.gtb_spec bytes (Z.of_nat (List.length (b :: rest)))) as [G|L]; [lia|].
      rewrite Hinc. apply IH.
      + rewrite length_skipn. simpl List.length in *. lia.
      + lia.
      + rewrite length_skipn. simpl List.length in *. lia. }
  destruct (mbslen_loop mbstate mbrlen fuel s st len) as [n| |].
  - exists n. split; [reflexivity | exact Hb].
  - contradiction.
  - contradiction.
Qed.

(** X10: when each call of [mbrlen] reports an invalid or incomplete
    sequence or a byte count that the string still has before its
    terminator, [mbslen] returns: the loop ends at the terminator, and
    the count of characters lies between 0 and the byte length of the
    string. *)
Theorem mbslen_bounded (state0 : mbstate) (s : list Z) :
  (forall s st,
     fst (mbrlen s st) = to_size (-1) \/ fst (mbrlen s st) = to_size (-2) \/
     0 <= fst (mbrlen s st) <= Z.of_nat (List.length s)) ->
  Z.of_nat (List.length s) <= SIZE_MAX ->
  exists n,
    mbslen mbstate mbrlen state0 s = Len n /\ 0 <= n <= Z.of_nat (List.length s).
Proof.
  intros Hok Hfit. unfold mbslen.
  destruct (mbslen_loop_len Hok (S (List.length s)) s state0 0
              ltac:(lia) ltac:(lia) ltac:(lia)) as [n [E Hn]].
  exists n. split; [exact E | lia].
Qed.

Lemma mbslen_loop_bytes :
  (forall s st, s <> [] ->
     fst (mbrlen s st) = 1 \/ fst (mbrlen s st) = to_size (-1) \/
     fst (mbrlen s st) = to_size (-2)) ->
  forall fuel s st len,
    (List.length s < fuel)%nat -> 0 <= len ->
    len + Z.of_nat (List.length s) <= SIZE_MAX ->
    mbslen_loop mbstate mbrlen fuel s st len = Len (len + Z.of_nat (List.length s)).
Proof.
  intros Hone. induction fuel as [|fuel IH]; intros s st len Hfuel Hlen Hfit.
  - lia.
  - cbn [mbslen_loop]. destruct s as [|b rest]; [simpl; f_equal; lia|].
    pose proof (Hone (b :: rest) st ltac:(discriminate)) as Hbytes.
    destruct (mbrlen (b :: rest) st) as [bytes st']. simpl in Hbytes.
    assert (Hinc : size_add len 1 = len + 1).
    { unfold size_add. apply to_size_small. unfold is_size.
      simpl List.length in Hfit. lia. }
    simpl List.length in *.
    destruct Hbytes as [E|[E|E]]; subst bytes.
    + change ((1 =? to_size (-1)) || (1 =? to_size (-2))) with false.
      cbn match. change (1 =? 0) with false. cbn match.
      destruct (Z.gtb_spec 1 (Z.of_nat (S (List.length rest)))) as [G|_]; [lia|].
      rewrite Hinc. change (skipn (Z.to_nat 1) (b :: rest)) with rest.
      rewrite IH by lia. f_equal. lia.
    + rewrite Z.eqb_refl. cbn [orb]. rewrite Hinc, IH by lia. f_equal. lia.
    + rewrite Z.eqb_refl, orb_true_r. rewrite Hinc, IH by lia. f_equal. lia.
Qed.

(** X11: when every call of [mbrlen] reports a single byte or an
    invalid or incomplete sequence - as in a single-byte locale -
    [mbslen] is the byte length of the string: an invalid byte counts
    as one character. *)
Theorem mbslen_single_byte (state0 : mbstate) (s : list Z) :
  (forall s st, s <> [] ->
     fst (mbrlen s st) = 1 \/ fst (mbrlen s st) = to_size (-1) \/
     fst (mbrlen s st) = to_size (-2)) ->
  Z.of_nat (List.length s) <= SIZE_MAX ->
  mbslen mbstate mbrlen state0 s = Len (Z.of_nat (List.length s)).
Proof.
  intros Hone Hfit. unfold mbslen.
  rewrite (mbslen_loop_bytes Hone) by lia. reflexivity.
Qed.

End MbslenFacts.

Lemma mbslen_bounded_witness :
  exists n,
    mbslen unit
      (fun s st => (match s with
                    | [] => 0
                    | [_] => 1
                    | b :: _ :: _ => if 192 <=? b then 2 else 1
                    end, st))
      tt [195; 169; 97] = Len n /\
    0 <= n <= 3.
Proof.
  apply (mbslen_bounded unit
           (fun s st => (match s with
                         | [] => 0
                         | [_] => 1
                         | b :: _ :: _ => if 192 <=? b then 2 else 1
                         end, st))
           tt [195; 169; 97]).
  - intros s st. right. right. simpl fst.
    destruct s as [|b [|b' rest]]; simpl List.length;
      [lia | lia | destruct (192 <=? b); lia].
  - simpl. unfold SIZE_MAX, SIZE_MOD, SIZE_BITS. lia.
Defined.

Lemma mbslen_single_byte_witness :
  mbslen unit (fun s st => (1, st)) tt [103; 114; 101; 112] = Len 4.
Proof.
  apply (mbslen_single_byte unit (fun s st => (1, st)) tt [103; 114; 101; 112]).
  - intros s st _. left. reflexivity.
  - simpl. unfold SIZE_MAX, SIZE_MOD, SIZE_BITS. lia.
Defined.

End StubsExtra.

(** ** gnu_grep_wrapper.c: initialisation, contexts, control flow *)

Section ProcRules.

Lemma returns_only_ret A (Q : A -> Prop) (a : A) : Q a -> returns_only Q (ret a).
Proof. intros H w b w' E. inversion E; subst. exact H. Qed.

Lemma returns_only_abort A (Q : A -> Prop) : returns_only Q (@abort A).
Proof. intros w b w' E. discriminate E. Qed.

Lemma returns_only_fault A (Q : A -> Prop) : returns_only Q (@fault A).
Proof. intros w b w' E. discriminate E. Qed.

Lemma returns_only_bind A B (Q : B -> Prop) (m : Proc A) (k : A -> Proc B) :
  (forall a, returns_only Q (k a)) -> returns_only Q (bind m k).
Proof.
  intros Hk w b w' E. unfold bind in E.
  destruct (m w) as [a w1|w1|w1|w1]; try discriminate E.
  exact (Hk a w1 b w' E).
Qed.

Lemma returns_only_setjmp A (Q : A -> Prop) (handler body : Proc A) :
  returns_only Q handler -> returns_only Q body ->
  returns_only Q (setjmp_error_jmp handler body).
Proof.
  intros Hh Hb w b w' E. unfold setjmp_error_jmp in E.
  destruct (body w) as [a w1|w1|w1|w1] eqn:Eb.
  - inversion E; subst. exact (Hb w b w' Eb).
  - exact (Hh w1 b w' E).
  - discriminate E.
  - discriminate E.
Qed.

Lemma returns_only_xalloc_die A (Q : A -> Prop) : returns_only Q (@Stubs.xalloc_die A).
Proof.
  unfold Stubs.xalloc_die. apply returns_only_bind. intros _. apply returns_only_abort.
Qed.

End ProcRules.

Ltac proc_step :=
  match goal with
  | |- returns_only _ (ret _) => apply returns_only_ret
  | |- returns_only _ (@fault _) => apply returns_only_fault
  | |- returns_only _ (Gnu.copy_pattern _ _) => unfold Gnu.copy_pattern
  | |- returns_only _ (@Stubs.xalloc_die _) => apply returns_only_xalloc_die
  | |- returns_only _ (setjmp_error_jmp _ _) => apply returns_only_setjmp
  | |- returns_only _ (bind _ _) => apply returns_only_bind; intros ?
  | |- returns_only _ (if ?b then _ else _) => destruct b
  | |- returns_only _ (match ?x with _ => _ end) => destruct x eqn:?
  | |- preserves _ (ret _) => apply preserves_ret
  | |- preserves _ (@abort _) => apply preserves_abort
  | |- preserves _ (@fault _) => apply preserves_fault
  | |- preserves _ (Gnu.copy_pattern _ _) => unfold Gnu.copy_pattern
  | |- preserves _ get_world => apply preserves_get_world
  | |- preserves _ (setjmp_error_jmp _ _) => apply preserves_setjmp
  | |- preserves _ (bind _ _) => apply preserves_bind; [|intros ?]
  | |- preserves _ (modify _) =>
      apply preserves_modify; intros ? ?; first [assumption | reflexivity]
  | |- preserves _ (alloc_request _) =>
      apply preserves_alloc_request; intros ? ? ? ?; assumption
  | |- preserves _ (malloc _) =>
      apply preserves_alloc_request; intros ? ? ? ?; assumption
  | |- preserves _ (@Stubs.xalloc_die _) =>
      apply preserves_xalloc_die; intros ? ? ?; assumption
  | |- preserves _ (if ?b then _ else _) => destruct b
  | |- preserves _ (match ?x with _ => _ end) => destruct x
  end.

Ltac proc := repeat proc_step.

Module GnuExtra.
Import Gnu.

Section Facts.

Variable handle : Type.
Variable Fcompile GEAcompile : Globals -> string -> Z -> Z -> bool -> engine_reply (option handle).
Variable Fexecute EGexecute : Globals -> handle -> string -> Z -> engine_reply (Z * Z).
Variable RE_SYNTAX_GREP RE_SYNTAX_EGREP RE_ICASE : Z.

Local Abbreviation compile_fixed := (gnu_grep_compile_fixed handle Fcompile).
Local Abbreviation compile_regex :=
  (gnu_grep_compile_regex handle GEAcompile RE_SYNTAX_GREP RE_SYNTAX_EGREP RE_ICASE).
Local Abbreviation execute := (gnu_grep_execute handle Fexecute EGexecute).
Local Abbreviation compile :=
  (Gnu.compile handle Fcompile GEAcompile RE_SYNTAX_GREP RE_SYNTAX_EGREP RE_ICASE).
Local Abbreviation run_ops :=
  (Gnu.run_ops handle Fcompile GEAcompile Fexecute EGexecute
               RE_SYNTAX_GREP RE_SYNTAX_EGREP RE_ICASE).
Local Abbreviation run_op :=
  (Gnu.run_op handle Fcompile GEAcompile Fexecute EGexecute
              RE_SYNTAX_GREP RE_SYNTAX_EGREP RE_ICASE).

(** *** Initialisation *)

Lemma init_once_engine A c (f : Globals -> engine_reply A) :
  c <> Call_wordinit -> preserves init_once (engine c f).
Proof.
  intros Hc. unfold engine.
  apply preserves_bind.
  - apply preserves_modify. intros w H. unfold init_once in *.
    destruct c; try contradiction; exact H.
  - intros _. proc.
Qed.

Lemma init_once_init : preserves init_once gnu_grep_init.
Proof.
  intros w H. rewrite GnuFacts.gnu_grep_init_returns. unfold init_once in *.
  destruct (initialized w) eqn:Hi; simpl.
  - rewrite Hi. exact H.
  - split; [exact (f_equal S H) | reflexivity].
Qed.

Lemma init_once_compile req : preserves init_once (compile req).
Proof.
  destruct req; simpl.
  - unfold gnu_grep_compile_fixed.
    apply preserves_bind; [apply init_once_init | intros _].
    proc; apply init_once_engine; discriminate.
  - unfold gnu_grep_compile_regex.
    apply preserves_bind; [apply init_once_init | intros _].
    proc; apply init_once_engine; discriminate.
Qed.

Lemma init_once_execute ctx text text_len ms :
  preserves init_once (execute ctx text text_len ms).
Proof.
  unfold gnu_grep_execute.
  destruct ctx as [c|]; [|proc].
  destruct text as [t|]; [|destruct (compiled c); proc].
  destruct (compiled c) as [h|]; [|proc].
  destruct (text_len <=? 0); [proc|].
  apply preserves_bind; [proc | intros _].
  apply preserves_setjmp; [proc|].
  apply preserves_bind.
  - destruct (is_fixed c); apply init_once_engine; discriminate.
  - intros [r m]. proc.
Qed.

Lemma init_once_run_op o : preserves init_once (run_op o).
Proof.
  destruct o; simpl.
  - apply preserves_bind; [|intros; apply preserves_ret].
    apply (init_once_compile (Req_fixed pattern pattern_len case_insensitive)).
  - apply preserves_bind; [|intros; apply preserves_ret].
    apply (init_once_compile (Req_regex pattern pattern_len case_insensitive extended)).
  - apply preserves_bind; [|intros; apply preserves_ret].
    apply init_once_execute.
  - apply preserves_ret.
Qed.

(** X13: initialisation happens once.  After every program of calls
    run from program start, [wordinit] has been entered exactly once if
    the locale profile is marked initialised and not at all otherwise,
    and an initialised profile is the single-byte one: not multibyte,
    simple, not UTF-8, with all 256 lengths equal to 1. *)
Theorem init_happens_once (os : list (op handle)) (script : list bool) :
  init_once (world_of (run_ops os (initial_world script))) /\
  List.length (sbclen ascii_profile) = 256%nat /\
  Forall (fun n => n = 1) (sbclen ascii_profile).
Proof.
  split; [|split].
  - assert (H : preserves init_once (run_ops os)).
    { induction os as [|o rest IH]; simpl.
      - apply preserves_ret.
      - apply preserves_bind; [apply init_once_run_op | intros _; exact IH]. }
    apply H. reflexivity.
  - reflexivity.
  - apply Forall_forall. intros n Hn. apply repeat_spec in Hn. exact Hn.
Qed.

(** Every compile call that returns has set the profile up. *)
Lemma compile_initializes req w :
  initialized (world_of (compile req w)) = true.
Proof. exact (proj2 (GnuFacts.compile_sets_globals _ _ _ _ _ _ req w)). Qed.

(** *** Contexts *)

Lemma compile_returns_only req : returns_only (usable_for req) (compile req).
Proof.
  destruct req; simpl.
  - unfold gnu_grep_compile_fixed, engine. proc; simpl; try exact I.
    split; [discriminate | reflexivity].
  - unfold gnu_grep_compile_regex, engine. proc; simpl; try exact I.
    split; [discriminate | reflexivity].
Qed.

(** X14: a context that a compile call returns is complete: its
    compiled pattern is not null and [is_fixed] tells which of the two
    compile functions made it. *)
Theorem compile_returns_usable_context (req : compile_req) (w w' : World)
    (c : GnuSearchContext handle) :
  compile req w = Returned (Some c) w' ->
  (exists h, compiled c = Some h) /\
  is_fixed c = match req with Req_fixed _ _ _ => true | Req_regex _ _ _ _ => false end.
Proof.
  intros E. pose proof (compile_returns_only req w (Some c) w' E) as [Hc Hf].
  split; [|exact Hf].
  destruct (compiled c) as [h|]; [exists h; reflexivity | contradiction].
Qed.

(** X15: the compile function used decides the engine entry used for
    searching.  With every context that a compile call has returned, an
    execute call on a text with a positive length enters the engine
    exactly once: through [Fexecute] when the context comes from
    [gnu_grep_compile_fixed], through [EGexecute] when it comes from
    [gnu_grep_compile_regex]. *)
Theorem execute_entry_follows_compile (req : compile_req) (w0 w1 : World)
    (c : GnuSearchContext handle) (t : string) (n : Z) (ms : bool) (w : World) :
  compile req w0 = Returned (Some c) w1 -> 0 < n ->
  engine_log (world_of (execute (Some c) (Some t) n ms w))
  = match req with
    | Req_fixed _ _ _ => Call_Fexecute
    | Req_regex _ _ _ _ => Call_EGexecute
    end :: engine_log w.
Proof.
  intros E Hn. pose proof (compile_returns_only req w0 (Some c) w1 E) as [Hc Hf].
  unfold gnu_grep_execute.
  destruct (compiled c) as [h|]; [|contradiction].
  destruct (Z.leb_spec n 0) as [Hle|_]; [lia|].
  unfold bind, modify, setjmp_error_jmp, engine, bind, modify, get_world.
  rewrite Hf. destruct req; simpl.
  - destruct (Fexecute (globals w) h t n) as [[r m]|]; simpl;
      [destruct (r <? 0)|]; reflexivity.
  - destruct (EGexecute (globals w) h t n) as [[r m]|]; simpl;
      [destruct (r <? 0)|]; reflexivity.
Qed.

(** *** Failed allocations in compile *)

(** X16: when the copy of the pattern cannot be allocated,
    [gnu_grep_compile_fixed] returns [NULL] without entering [Fcompile],
    for every [pattern_len]; so it does, for a length within the
    caller's pattern, when the context cannot be allocated.  The case
    flag of the failed call is in [match_icase] all the same. *)
Theorem compile_fixed_alloc_failure (pattern : string) (pattern_len : Z)
    (case_insensitive : bool) (w : World) (rest : list bool) :
  alloc_script w = false :: rest \/
  (alloc_script w = true :: false :: rest /\
   0 <= pattern_len <= Z.of_nat (String.length pattern)) ->
  exists w',
    compile_fixed pattern pattern_len case_insensitive w = Returned None w' /\
    entries Call_Fcompile (engine_log w') = entries Call_Fcompile (engine_log w) /\
    match_icase (globals w') = case_insensitive.
Proof.
  intros Hs. unfold gnu_grep_compile_fixed.
  unfold bind at 1. rewrite GnuFacts.gnu_grep_init_returns.
  unfold bind at 1. unfold modify at 1.
  unfold bind, malloc, alloc_request, setjmp_error_jmp, modify, copy_pattern.
  destruct Hs as [Hs|[Hs Hlen]].
  - destruct (initialized w); simpl; rewrite Hs; simpl; eexists; repeat split.
  - destruct (Z.leb_spec 0 pattern_len) as [_|H]; [|lia].
    destruct (Z.leb_spec pattern_len (Z.of_nat (String.length pattern))) as [_|H]; [|lia].
    destruct (initialized w); simpl; rewrite Hs; simpl; eexists; repeat split.
Qed.

(** A length outside the caller's pattern makes the copy leave the
    blocks once the first allocation is served. *)
Lemma compile_fixed_bad_length pattern pattern_len case_insensitive w :
  alloc_script w = [] ->
  pattern_len < 0 \/ Z.of_nat (String.length pattern) < pattern_len ->
  exists w', compile_fixed pattern pattern_len case_insensitive w = Faulted w'.
Proof.
  intros Hs Hbad. unfold gnu_grep_compile_fixed.
  unfold bind at 1. rewrite GnuFacts.gnu_grep_init_returns.
  unfold bind at 1. unfold modify at 1.
  unfold bind, malloc, alloc_request, copy_pattern.
  assert (Hcheck : (0 <=? pattern_len)
                   && (pattern_len <=? Z.of_nat (String.length pattern)) = false).
  { destruct (Z.leb_spec 0 pattern_len);
      destruct (Z.leb_spec pattern_len (Z.of_nat (String.length pattern)));
      simpl; try reflexivity; lia. }
  rewrite Hcheck.
  destruct (initialized w); simpl; rewrite Hs; simpl; eexists; reflexivity.
Qed.

(** *** A pattern the engine refuses *)


End Facts.

End GnuExtra.

(** ** pcre2_wrapper.c: searches *)

Module PcreExtra.
Import Pcre.

Section Facts.

Variable pcre2_code : Type.
Variable pcre2_compile : string -> Z -> Z -> option pcre2_code * Z * Z.
Variable pcre2_match : pcre2_code -> string -> Z -> Z -> Z -> Z * Z * Z.
Variable pcre2_get_error_message : Z -> string.
Variable PCRE2_UTF PCRE2_CASELESS PCRE2_MULTILINE : Z.
Variable PCRE2_ERROR_NOMATCH : Z.
Variable sizeof_match_data sizeof_match_context : Z.

Local Abbreviation compile_pattern :=
  (pcre2_compile_pattern pcre2_code pcre2_compile
     PCRE2_UTF PCRE2_CASELESS PCRE2_MULTILINE sizeof_match_data sizeof_match_context).
Local Abbreviation loop := (find_all_loop pcre2_code pcre2_match PCRE2_ERROR_NOMATCH).
Local Abbreviation find_all := (pcre2_find_all pcre2_code pcre2_match PCRE2_ERROR_NOMATCH).
Local Abbreviation find_first := (pcre2_find_first pcre2_code pcre2_match PCRE2_ERROR_NOMATCH).
Local Abbreviation get_error_message :=
  (pcre2_wrapper_get_error_message pcre2_code pcre2_get_error_message).

(** *** The results array *)

Lemma find_all_loop_safe cd text text_len max_results :
  forall fuel offset count results,
    Z.of_nat (List.length results) = count ->
    Forall (fun r => valid r = 1) results ->
    match loop fuel cd text text_len max_results offset count results with
    | Found n rs =>
      Z.of_nat (List.length rs) <= Z.max count max_results /\
      (0 <= n -> n = Z.of_nat (List.length rs)) /\
      Forall (fun r => valid r = 1) rs /\
      exists new, rs = (results ++ new)%list
    | _ => True
    end.
Proof.
  induction fuel as [|fuel IH]; intros offset count results Hlen Hvalid;
    cbn [find_all_loop]; [exact I|].
  assert (Hstop : Z.of_nat (List.length results) <= Z.max count max_results /\
                  (0 <= count -> count = Z.of_nat (List.length results)) /\
                  Forall (fun r => valid r = 1) results /\
                  exists new, results = (results ++ new)%list).
  { split; [lia|]. split; [lia|]. split; [exact Hvalid|].
    exists []. rewrite app_nil_r. reflexivity. }
  destruct (Z.ltb_spec offset text_len); cbn [andb]; [|exact Hstop].
  destruct (Z.ltb_spec count max_results) as [Hroom|_]; [|exact Hstop].
  destruct (pcre2_match cd text text_len offset 0) as [[rc ov0] ov1].
  destruct (Z.ltb_spec rc 0) as [Hneg|_].
  - destruct (rc =? PCRE2_ERROR_NOMATCH); [exact Hstop|].
    split; [lia|]. split; [lia|]. split; [exact Hvalid|].
    exists []. rewrite app_nil_r. reflexivity.
  - destruct (count =? INT_MAX); [exact I|].
    specialize (IH (if ov0 =? ov1 then size_add ov1 1 else ov1) (count + 1)
                   (results ++ [mkPcreMatch ov0 ov1 1])%list).
    destruct (loop fuel cd text text_len max_results
                (if ov0 =? ov1 then size_add ov1 1 else ov1) (count + 1)
                (results ++ [mkPcreMatch ov0 ov1 1])%list) as [n rs| |];
      try exact I.
    destruct IH as [H1 [H2 [H3 [new H4]]]].
    + rewrite length_app. simpl. lia.
    + apply Forall_app. split; [exact Hvalid|]. constructor; [reflexivity | constructor].
    + split; [lia|]. split; [exact H2|]. split; [exact H3|].
      exists (mkPcreMatch ov0 ov1 1 :: new). rewrite H4, <- app_assoc. reflexivity.
Qed.

(** X18: [pcre2_find_all] never stores more than [max_results]
    entries, whatever the engine reports: the entries stored number at
    most [max_results], each has [valid = 1], and a return value that
    is not negative is the number of entries stored. *)
Theorem find_all_within_capacity (ctx : option (PcreContext pcre2_code))
    (text : option string) (text_len : Z) (results : bool) (max_results : Z)
    (n : Z) (rs : list PcreMatch) :
  0 <= max_results ->
  find_all ctx text text_len results max_results = Found n rs ->
  Z.of_nat (List.length rs) <= max_results /\
  (0 <= n -> n = Z.of_nat (List.length rs)) /\
  Forall (fun r => valid r = 1) rs.
Proof.
  intros Hmax E. unfold pcre2_find_all in E.
  assert (Hnull : Found (-1) [] = Found n rs ->
            Z.of_nat (List.length rs) <= max_results /\
            (0 <= n -> n = Z.of_nat (List.length rs)) /\
            Forall (fun r => valid r = 1) rs).
  { intros E'. inversion E'; subst. simpl. split; [lia|]. split; [lia | constructor]. }
  destruct ctx as [c|]; [|exact (Hnull E)].
  destruct text as [t|]; [|exact (Hnull E)].
  destruct results; [|exact (Hnull E)].
  destruct (code c) as [cd|]; [|exact (Hnull E)].
  pose proof (find_all_loop_safe cd t text_len max_results
                (S (Z.to_nat max_results)) 0 0 [] eq_refl (Forall_nil _)) as H.
  rewrite E in H. destruct H as [H1 [H2 [H3 _]]].
  split; [lia|]. split; [exact H2 | exact H3].
Qed.

(** *** Order of the spans *)

Lemma spans_from_weaken text_len k k' rs :
  k' <= k -> spans_from text_len k rs -> spans_from text_len k' rs.
Proof.
  intros Hk. destruct rs as [|r rest]; simpl; [trivial|].
  intros [H1 H2]. split; [lia | exact H2].
Qed.

Lemma find_all_loop_ordered cd text text_len max_results :
  text_len < SIZE_MAX ->
  (forall off rc a b,
     0 <= off < text_len -> pcre2_match cd text text_len off 0 = (rc, a, b) ->
     0 <= rc -> off <= a /\ a <= b /\ b <= text_len) ->
  forall fuel offset count results n rs,
    0 <= offset ->
    loop fuel cd text text_len max_results offset count results = Found n rs ->
    exists new, rs = (results ++ new)%list /\ spans_from text_len offset new.
Proof.
  intros Hlen Hsane.
  induction fuel as [|fuel IH]; intros offset count results n rs Hoff E;
    cbn [find_all_loop] in E; [discriminate E|].
  assert (Hstop : forall m, Found m results = Found n rs ->
            exists new, rs = (results ++ new)%list /\ spans_from text_len offset new).
  { intros m E'. inversion E'; subst. exists []. rewrite app_nil_r.
    split; [reflexivity | exact I]. }
  destruct (Z.ltb_spec offset text_len) as [Hin|_]; cbn [andb] in E;
    [|exact (Hstop _ E)].
  destruct (count <? max_results); [|exact (Hstop _ E)].
  destruct (pcre2_match cd text text_len offset 0) as [[rc a] b] eqn:Em.
  destruct (Z.ltb_spec rc 0) as [Hneg|Hpos].
  - destruct (rc =? PCRE2_ERROR_NOMATCH); exact (Hstop _ E).
  - destruct (count =? INT_MAX); [discriminate E|].
    destruct (Hsane offset rc a b ltac:(lia) Em Hpos) as [Ha [Hab Hb]].
    assert (Hnext : b <= (if a =? b then size_add b 1 else b)).
    { destruct (a =? b); [|lia]. unfold size_add.
      rewrite to_size_small by (unfold is_size; lia). lia. }
    apply IH in E; [|lia].
    destruct E as [new [Ers Hnew]].
    exists (mkPcreMatch a b 1 :: new). split.
    + rewrite Ers, <- app_assoc. reflexivity.
    + simpl. split; [exact Ha|]. split; [exact Hab|]. split; [exact Hb|].
      eapply spans_from_weaken; [exact Hnext | exact Hnew].
Qed.

(** X19: with an engine that reports each match at or after the offset
    it was asked to search from, with [start <= end <= text_len], the
    spans that [pcre2_find_all] stores lie inside the text, in
    increasing order and without overlap: each starts at or after the
    end of the one before. *)
Theorem find_all_spans_ordered (c : PcreContext pcre2_code) (cd : pcre2_code)
    (text : string) (text_len max_results : Z) (n : Z) (rs : list PcreMatch) :
  code c = Some cd ->
  text_len < SIZE_MAX ->
  (forall off rc a b,
     0 <= off < text_len -> pcre2_match cd text text_len off 0 = (rc, a, b) ->
     0 <= rc -> off <= a /\ a <= b /\ b <= text_len) ->
  find_all (Some c) (Some text) text_len true max_results = Found n rs ->
  spans_from text_len 0 rs.
Proof.
  intros Hc Hlen Hsane E. unfold pcre2_find_all in E. rewrite Hc in E.
  destruct (find_all_loop_ordered cd text text_len max_results Hlen Hsane
              _ 0 0 [] n rs ltac:(lia) E) as [new [Ers Hnew]].
  rewrite Ers. exact Hnew.
Qed.

(** *** First match *)

(** X20: [pcre2_find_first] returns 1 exactly when it leaves
    [valid = 1] in the result; any other return value is 0 or negative
    and leaves [valid = 0] with the span fields of the result as they
    were. *)
Theorem find_first_valid_iff (c : PcreContext pcre2_code) (cd : pcre2_code)
    (text : string) (text_len start_offset : Z) (r0 : PcreMatch) :
  code c = Some cd ->
  exists r,
    snd (find_first (Some c) (Some text) text_len start_offset (Some r0)) = Some r /\
    (fst (find_first (Some c) (Some text) text_len start_offset (Some r0)) = 1
     <-> valid r = 1) /\
    (fst (find_first (Some c) (Some text) text_len start_offset (Some r0)) <> 1 ->
     fst (find_first (Some c) (Some text) text_len start_offset (Some r0)) <= 0 /\
     valid r = 0 /\ start r = start r0 /\ end_ r = end_ r0).
Proof.
  intros Hc. unfold pcre2_find_first. rewrite Hc.
  destruct (pcre2_match cd text text_len start_offset 0) as [[rc a] b].
  destruct (Z.ltb_spec rc 0) as [Hneg|Hpos].
  - destruct (rc =? PCRE2_ERROR_NOMATCH); simpl;
      eexists; (split; [reflexivity|]); simpl;
      (split; [split; intros H; (lia || discriminate H) |]);
      intros _; repeat split; lia.
  - simpl. eexists. split; [reflexivity|]. simpl.
    split; [split; reflexivity|]. intros H. contradiction.
Qed.

(** X21: [pcre2_find_all] starts as [pcre2_find_first] from offset 0
    does, on a text that is not empty and with room for a result: when
    the first search finds a span, that span is the first entry stored;
    when it does not, [pcre2_find_all] stores nothing and returns what
    [pcre2_find_first] returns, 0 for no match and the engine's code for
    an error. *)
Theorem find_all_starts_as_find_first (c : PcreContext pcre2_code)
    (cd : pcre2_code) (text : string) (text_len max_results : Z) (r0 : PcreMatch) :
  code c = Some cd -> 0 < text_len -> 0 < max_results ->
  (fst (find_first (Some c) (Some text) text_len 0 (Some r0)) <> 1 ->
   find_all (Some c) (Some text) text_len true max_results
   = Found (fst (find_first (Some c) (Some text) text_len 0 (Some r0))) []) /\
  (fst (find_first (Some c) (Some text) text_len 0 (Some r0)) = 1 ->
   forall n rs,
     find_all (Some c) (Some text) text_len true max_results = Found n rs ->
     hd_error rs = snd (find_first (Some c) (Some text) text_len 0 (Some r0))).
Proof.
  intros Hc HL Hmax. unfold pcre2_find_first, pcre2_find_all. rewrite Hc.
  cbn [find_all_loop].
  destruct (Z.ltb_spec 0 text_len) as [_|H]; [|lia].
  destruct (Z.ltb_spec 0 max_results) as [_|H]; [|lia]. cbn [andb].
  destruct (pcre2_match cd text text_len 0 0) as [[rc a] b].
  destruct (Z.ltb_spec rc 0) as [Hneg|Hpos].
  - destruct (rc =? PCRE2_ERROR_NOMATCH); simpl.
    + split; [reflexivity | intros H; discriminate H].
    + split; [reflexivity | intros H; lia].
  - simpl. split; [intros H; contradiction|].
    intros _ n rs E. change (0 =? INT_MAX) with false in E. cbn match in E.
    pose proof (find_all_loop_safe cd text text_len max_results
                  (Z.to_nat max_results)
                  (if a =? b then size_add b 1 else b) 1
                  [mkPcreMatch a b 1] eq_refl
                  ltac:(repeat constructor)) as H.
    rewrite E in H. destruct H as [_ [_ [_ [new Hrs]]]].
    rewrite Hrs. reflexivity.
Qed.

(** *** Compilation *)


(** *** Capacity and the empty pattern *)

(** X23: on a text longer than the results array, when the search
    from each offset below [max_results] succeeds with the zero-width
    span at that offset, [pcre2_find_all] fills the array: it returns
    [max_results], the zero-width spans at the offsets
    0 .. [max_results - 1], and searches no further. *)
Theorem find_all_empty_pattern_truncated (c : PcreContext pcre2_code)
    (cd : pcre2_code) (text : string) (text_len max_results : Z) :
  code c = Some cd ->
  0 <= max_results < text_len -> text_len <= SIZE_MAX -> max_results <= INT_MAX ->
  (forall off, 0 <= off < max_results ->
     exists rc, 0 <= rc /\ pcre2_match cd text text_len off 0 = (rc, off, off)) ->
  find_all (Some c) (Some text) text_len true max_results
  = Found max_results (empty_spans 0 (Z.to_nat max_results)).
Proof.
  intros Hc Hmax HL Hint Hempty.
  unfold pcre2_find_all. rewrite Hc.
  replace (S (Z.to_nat max_results)) with (Z.to_nat max_results + 1)%nat by lia.
  rewrite (PcreFacts.find_all_loop_empty_run pcre2_code pcre2_match PCRE2_ERROR_NOMATCH
             cd text text_len max_results max_results)
    by (try exact Hempty; lia).
  cbn [find_all_loop app].
  rewrite Z.ltb_irrefl, andb_false_r. reflexivity.
Qed.

(** *** Termination *)

Lemma find_all_loop_returns cd text text_len max_results :
  max_results <= INT_MAX ->
  forall fuel offset count results,
    (0 < fuel)%nat -> max_results - count < Z.of_nat fuel ->
    exists n rs,
      loop fuel cd text text_len max_results offset count results = Found n rs.
Proof.
  intros Hint.
  induction fuel as [|fuel IH]; intros offset count results Hpos Hfuel; [lia|].
  cbn [find_all_loop].
  destruct (Z.ltb_spec offset text_len); cbn [andb]; [|eexists; eexists; reflexivity].
  destruct (Z.ltb_spec count max_results); [|eexists; eexists; reflexivity].
  destruct (pcre2_match cd text text_len offset 0) as [[rc ov0] ov1].
  destruct (rc <? 0).
  - destruct (rc =? PCRE2_ERROR_NOMATCH); eexists; eexists; reflexivity.
  - destruct (Z.eqb_spec count INT_MAX) as [E|_]; [lia|].
    apply IH; lia.
Qed.

(** X25: with [max_results <= INT_MAX], [pcre2_find_all] returns for
    every library and every input: each iteration increments [count],
    which stays below [max_results] and so cannot overflow, and after
    at most [max_results] iterations the loop test fails.  The value
    returned is a count or the library's error code. *)
Theorem find_all_returns (ctx : option (PcreContext pcre2_code))
    (text : option string) (text_len : Z) (results : bool) (max_results : Z) :
  max_results <= INT_MAX ->
  exists n rs, find_all ctx text text_len results max_results = Found n rs.
Proof.
  intros Hint. unfold pcre2_find_all.
  destruct ctx as [c|]; [|eexists; eexists; reflexivity].
  destruct text as [t|]; [|eexists; eexists; reflexivity].
  destruct results; [|eexists; eexists; reflexivity].
  destruct (code c) as [cd|]; [|eexists; eexists; reflexivity].
  apply find_all_loop_returns; [exact Hint | lia | lia].
Qed.

End Facts.

End PcreExtra.

(** ** The added properties on concrete inputs *)

Module ExtraScenarios.
Import LineEngine.

Lemma compile_returns_usable_context_witness :
  (exists h, Gnu.compiled (Gnu.mkCtx (Some "cat") true) = Some h) /\
  Gnu.is_fixed (Gnu.mkCtx (Some "cat") true) = true.
Proof.
  refine (GnuExtra.compile_returns_usable_context
            handle Fcompile GEAcompile RE_SYNTAX_GREP RE_SYNTAX_EGREP RE_ICASE
            cat_req (initial_world []) cat_world (Gnu.mkCtx (Some "cat") true) _).
  vm_compute. reflexivity.
Defined.

Lemma execute_entry_follows_compile_witness :
  engine_log (world_of (execute cat_ctx (Some (line "the cat sat")) 12 true cat_world))
  = Call_Fexecute :: engine_log cat_world.
Proof.
  unfold execute, cat_ctx.
  refine (GnuExtra.execute_entry_follows_compile
            handle Fcompile GEAcompile Fexecute EGexecute
            RE_SYNTAX_GREP RE_SYNTAX_EGREP RE_ICASE
            cat_req (initial_world []) cat_world (Gnu.mkCtx (Some "cat") true)
            (line "the cat sat") 12 true cat_world _ _).
  - vm_compute. reflexivity.
  - lia.
Defined.

Lemma compile_fixed_alloc_failure_witness :
  exists w',
    Gnu.gnu_grep_compile_fixed handle Fcompile "cat" 3 true (initial_world [true; false])
    = Returned None w' /\
    entries Call_Fcompile (engine_log w') = 0%nat /\
    match_icase (globals w') = true.
Proof.
  apply (GnuExtra.compile_fixed_alloc_failure
           handle Fcompile "cat" 3 true (initial_world [true; false]) []).
  right. split; [reflexivity | simpl; lia].
Defined.

Lemma find_all_within_capacity_witness :
  Z.of_nat (List.length [Pcre.mkPcreMatch 0 0 1; Pcre.mkPcreMatch 1 1 1]) <= 2.
Proof.
  refine (proj1 (PcreExtra.find_all_within_capacity
                   unit EmptyPattern.pcre2_match EmptyPattern.PCRE2_ERROR_NOMATCH
                   EmptyPattern.ctx (Some "abc") 3 true 2 2
                   [Pcre.mkPcreMatch 0 0 1; Pcre.mkPcreMatch 1 1 1] _ _)).
  - lia.
  - vm_compute. reflexivity.
Defined.

Lemma find_all_spans_ordered_witness :
  Pcre.spans_from 3 0
    [Pcre.mkPcreMatch 0 0 1; Pcre.mkPcreMatch 1 1 1; Pcre.mkPcreMatch 2 2 1].
Proof.
  refine (PcreExtra.find_all_spans_ordered
            unit EmptyPattern.pcre2_match EmptyPattern.PCRE2_ERROR_NOMATCH
            (Pcre.mkPcreContext (Some tt) (Some 1%nat) (Some 2%nat) 100 0) tt
            "abc" 3 4 3 _ _ _ _ _).
  - reflexivity.
  - unfold SIZE_MAX, SIZE_MOD, SIZE_BITS. lia.
  - intros off rc a b Hoff E _. inversion E; subst. lia.
  - vm_compute. reflexivity.
Defined.

Lemma find_first_valid_iff_witness :
  exists r,
    snd (Pcre.pcre2_find_first unit EmptyPattern.pcre2_match
           EmptyPattern.PCRE2_ERROR_NOMATCH EmptyPattern.ctx (Some "abc") 3 1
           (Some (Pcre.mkPcreMatch 7 7 7))) = Some r /\
    Pcre.valid r = 1.
Proof.
  destruct (PcreExtra.find_first_valid_iff
              unit EmptyPattern.pcre2_match EmptyPattern.PCRE2_ERROR_NOMATCH
              (Pcre.mkPcreContext (Some tt) (Some 1%nat) (Some 2%nat) 100 0) tt
              "abc" 3 1 (Pcre.mkPcreMatch 7 7 7) eq_refl)
    as [r [H1 [H2 _]]].
  exists r. split; [exact H1|]. apply H2. reflexivity.
Defined.

Lemma find_all_starts_as_find_first_witness :
  hd_error [Pcre.mkPcreMatch 0 0 1; Pcre.mkPcreMatch 1 1 1; Pcre.mkPcreMatch 2 2 1]
  = Some (Pcre.mkPcreMatch 0 0 1).
Proof.
  refine (proj2 (PcreExtra.find_all_starts_as_find_first
                   unit EmptyPattern.pcre2_match EmptyPattern.PCRE2_ERROR_NOMATCH
                   (Pcre.mkPcreContext (Some tt) (Some 1%nat) (Some 2%nat) 100 0) tt
                   "abc" 3 4 (Pcre.mkPcreMatch 7 7 7) eq_refl _ _) _ 3 _ _).
  - lia.
  - lia.
  - reflexivity.
  - vm_compute. reflexivity.
Defined.


Lemma find_all_empty_pattern_truncated_witness :
  EmptyPattern.find_all EmptyPattern.ctx (Some "abc") 3 true 2
  = Pcre.Found 2 (Pcre.empty_spans 0 2).
Proof.
  unfold EmptyPattern.find_all, EmptyPattern.ctx.
  refine (PcreExtra.find_all_empty_pattern_truncated
            unit EmptyPattern.pcre2_match EmptyPattern.PCRE2_ERROR_NOMATCH
            _ tt "abc" 3 2 _ _ _ _ _).
  - reflexivity.
  - lia.
  - unfold SIZE_MAX, SIZE_MOD, SIZE_BITS. lia.
  - unfold INT_MAX. lia.
  - intros off Hoff. exists 1. split; [lia | reflexivity].
Defined.


Lemma find_all_returns_witness :
  exists n rs, EmptyPattern.find_all EmptyPattern.ctx (Some "abc") 3 true 4 = Pcre.Found n rs.
Proof.
  apply (PcreExtra.find_all_returns
           unit EmptyPattern.pcre2_match EmptyPattern.PCRE2_ERROR_NOMATCH
           EmptyPattern.ctx (Some "abc") 3 true 4).
  unfold INT_MAX. lia.
Defined.

End ExtraScenarios.

(** ** Independence of compiled patterns *)

Module SpecEngineFacts.
Import Gnu.

Section Facts.

Variable automaton : Type.
Variable Fcompile GEAcompile :
  Globals -> string -> Z -> Z -> bool -> engine_reply (option automaton).
Variable search_fixed search_regex :
  automaton -> bool * bool * ascii * LocaleInfo -> string -> Z -> engine_reply (Z * Z).
Variable RE_SYNTAX_GREP RE_SYNTAX_EGREP RE_ICASE : Z.

Local Abbreviation compile :=
  (Gnu.compile automaton Fcompile GEAcompile RE_SYNTAX_GREP RE_SYNTAX_EGREP RE_ICASE).
Local Abbreviation execute :=
  (gnu_grep_execute automaton
     (SpecEngine.Fexecute automaton search_fixed)
     (SpecEngine.EGexecute automaton search_regex)).

Lemma exec_view_same g g' :
  same_exec_view g g' -> SpecEngine.exec_view g = SpecEngine.exec_view g'.
Proof.
  intros [H1 [H2 [H3 H4]]]. unfold SpecEngine.exec_view.
  rewrite H1, H2, H3, H4. reflexivity.
Qed.


End Facts.

(** The case-sensitive [cat] does not match ["THE CAT"], before and
    after the case-insensitive [DOG] is compiled; the case-insensitive
    [DOG] matches ["hot dog"]. *)
Example case_flag_is_per_pattern :
  SpecEngine.compile (Req_fixed "cat" 3 false) (initial_world [])
  = Returned SpecEngine.cat_ctx SpecEngine.cat_world /\
  SpecEngine.compile (Req_fixed "DOG" 3 true) SpecEngine.cat_world
  = Returned SpecEngine.dog_ctx SpecEngine.dog_world /\
  match_icase (globals SpecEngine.dog_world) = true /\
  returned_value
    (SpecEngine.execute SpecEngine.cat_ctx (Some (LineEngine.line "THE CAT")) 8 true
       SpecEngine.cat_world) = Some (-1, None) /\
  returned_value
    (SpecEngine.execute SpecEngine.cat_ctx (Some (LineEngine.line "THE CAT")) 8 true
       SpecEngine.dog_world) = Some (-1, None) /\
  returned_value
    (SpecEngine.execute SpecEngine.dog_ctx (Some (LineEngine.line "hot dog")) 8 true
       SpecEngine.dog_world) = Some (8, Some 0).
Proof. vm_compute. repeat split. Qed.


End SpecEngineFacts.
